(** * Quantum Tic-Tac-Toe environment (qttt.py): model and properties

    A shallow embedding of [QTicTacToeEnv]: the move table, the outcome
    classifier with its lookup table, and the board circuit with the state
    vector the simulator backend computes for it. *)

From Stdlib Require Import Arith NArith ZArith List Bool Ascii String Lia.
From Stdlib Require Import Permutation DecimalString.
From Stdlib Require Import Reals Lra.
Import ListNotations.

(** ** Python values used by the environment *)

(** Python [str], as the list of its characters. *)
Definition str := list ascii.

Definition str_eqb (a b : str) : bool :=
  if list_eq_dec ascii_dec a b then true else false.

(** Exceptions the code can raise. [KeyError] carries the missing key. *)
Inductive exn : Type :=
| KeyError (k : Z)
| IndexError
| ValueError
| AssertionError
| CircuitError.

Inductive result (A : Type) : Type :=
| Ok (a : A)
| Raise (e : exn).
Arguments Ok {A} a.
Arguments Raise {A} e.

Definition bind {A B} (r : result A) (k : A -> result B) : result B :=
  match r with
  | Ok a => k a
  | Raise e => Raise e
  end.

Notation "x <- r ;; k" := (bind r (fun x => k))
  (at level 61, r at next level, right associativity).

(** [for x in l: acc = body(acc, x)], where the body may raise. *)
Fixpoint for_each {A S} (l : list A) (body : S -> A -> result S) (s : S)
  : result S :=
  match l with
  | [] => Ok s
  | x :: l' => s' <- body s x ;; for_each l' body s'
  end.

(** [[f(x) for x in l]], where [f] may raise. *)
Fixpoint comprehension {A B} (f : A -> result B) (l : list A)
  : result (list B) :=
  match l with
  | [] => Ok []
  | x :: l' => y <- f x ;; ys <- comprehension f l' ;; Ok (y :: ys)
  end.

(** [range(n)] *)
Definition range (n : nat) : list nat := seq 0 n.

(** [s[a:b]]: slicing clamps to the length of [s]. *)
Definition slice {A} (s : list A) (a b : nat) : list A :=
  firstn (b - a) (skipn a s).

(** [s[i]] for [i >= 0]: indexing raises when out of range. *)
Definition index {A} (s : list A) (i : nat) : result A :=
  match nth_error s i with
  | Some c => Ok c
  | None => Raise IndexError
  end.

(** [bin(x)]: the prefix [0b] followed by the binary digits. *)
Fixpoint bin_pos (p : positive) : str :=
  match p with
  | xH => ["1"%char]
  | xO p' => bin_pos p' ++ ["0"%char]
  | xI p' => bin_pos p' ++ ["1"%char]
  end.

Definition bin_digits (x : nat) : str :=
  match N.of_nat x with
  | N0 => ["0"%char]
  | Npos p => bin_pos p
  end.

Definition bin (x : nat) : str := "0"%char :: "b"%char :: bin_digits x.

(** [s.zfill(w)] for a string without a sign prefix. *)
Definition zfill (s : str) (w : nat) : str :=
  repeat "0"%char (w - List.length s) ++ s.

(** [int(s, 2)] for a string of binary digits. *)
Definition digit2 (c : ascii) : result nat :=
  if Ascii.eqb c "0" then Ok 0
  else if Ascii.eqb c "1" then Ok 1
  else Raise ValueError.

Definition parse_step (acc : nat) (c : ascii) : result nat :=
  b <- digit2 c ;; Ok (2 * acc + b).

Definition int2 (s : str) : result nat :=
  match s with
  | [] => Raise ValueError
  | _ => for_each s parse_step 0
  end.

(** ["{}-".format(action)] *)
Definition format_action (action : Z) : str :=
  list_ascii_of_string (NilZero.string_of_int (Z.to_int action)) ++ ["-"%char].

(** ** Gates and the move table *)

Inductive Gate : Type := HGate | XGate | CXGate.

Definition Gate_eqb (g h : Gate) : bool :=
  match g, h with
  | HGate, HGate | XGate, XGate | CXGate, CXGate => true
  | _, _ => false
  end.

(** A Python [dict] with integer keys, in insertion order. *)
Definition dict (V : Type) := list (Z * V).

Fixpoint dict_set {V} (d : dict V) (k : Z) (v : V) : dict V :=
  match d with
  | [] => [(k, v)]
  | (k', v') :: d' =>
      if Z.eqb k' k then (k', v) :: d' else (k', v') :: dict_set d' k v
  end.

Fixpoint dict_get {V} (d : dict V) (k : Z) : result V :=
  match d with
  | [] => Raise (KeyError k)
  | (k', v') :: d' => if Z.eqb k' k then Ok v' else dict_get d' k
  end.

Definition keys {V} (d : dict V) : list Z := map fst d.
Definition values {V} (d : dict V) : list V := map snd d.

(** [itertools.permutations(l, 2)]: ordered pairs of elements at distinct
    positions, in lexicographic order of the positions. *)
Fixpoint picks {A} (l : list A) : list (A * list A) :=
  match l with
  | [] => []
  | x :: r => (x, r) :: map (fun yr => (fst yr, x :: snd yr)) (picks r)
  end.

Definition permutations2 {A} (l : list A) : list (A * A) :=
  flat_map (fun xr => map (pair (fst xr)) (snd xr)) (picks l).

Definition Move : Type := (list nat * Gate)%type.

(** [_init_moves_dict]: the two loops, threading [(mvs_dict, mv_indx)]. *)
Definition moves_single (st : dict Move * Z) (q : nat) : dict Move * Z :=
  let '(mvs_dict, mv_indx) := st in
  let mvs_dict := dict_set mvs_dict mv_indx ([q], HGate) in
  let mv_indx := (mv_indx + 1)%Z in
  let mvs_dict := dict_set mvs_dict mv_indx ([q], XGate) in
  let mv_indx := (mv_indx + 1)%Z in
  (mvs_dict, mv_indx).

Definition moves_pair (st : dict Move * Z) (ct : nat * nat) : dict Move * Z :=
  let '(mvs_dict, mv_indx) := st in
  let '(c, t) := ct in
  let mvs_dict := dict_set mvs_dict mv_indx ([c; t], CXGate) in
  let mv_indx := (mv_indx + 1)%Z in
  (mvs_dict, mv_indx).

Definition _init_moves_dict (qnum : nat) : dict Move :=
  let st := ([], 0%Z) in
  let st := fold_left moves_single (range qnum) st in
  let st := fold_left moves_pair (permutations2 (range qnum)) st in
  fst st.

(** ** The outcome classifier *)

(** The loop of [_win_check] over the lines; [inl w] is an early [return w],
    [inr w] the value of [winner] when the loop runs to its end. *)
Fixpoint win_loop (cond_1 cond_2 : str) (lines : list str) (winner : nat)
  : nat + nat :=
  match lines with
  | [] => inr winner
  | line :: rest =>
      if str_eqb line cond_1 then
        if (winner =? 0) || (winner =? 1) then win_loop cond_1 cond_2 rest 1
        else if winner =? 2 then inl 0
        else win_loop cond_1 cond_2 rest winner
      else if str_eqb line cond_2 then
        if (winner =? 0) || (winner =? 2) then win_loop cond_1 cond_2 rest 2
        else if winner =? 1 then inl 0
        else win_loop cond_1 cond_2 rest winner
      else win_loop cond_1 cond_2 rest winner
  end.

Definition board_rows (d : nat) (board : str) : list str :=
  map (fun i => slice board (i * d) ((i + 1) * d)) (range d).

Definition board_cols (d : nat) (rows : list str) : result (list str) :=
  comprehension
    (fun j => comprehension (fun i => r <- index rows i ;; index r j) (range d))
    (range d).

Definition board_diags (d : nat) (rows : list str) : result (list str) :=
  d1 <- comprehension (fun i => r <- index rows i ;; index r i) (range d) ;;
  d2 <- comprehension (fun i => r <- index rows i ;; index r (d - i - 1))
          (range d) ;;
  Ok [d1; d2].

Definition board_lines (d : nat) (board : str) : result (list str) :=
  let rows := board_rows d board in
  cols <- board_cols d rows ;;
  diags <- board_diags d rows ;;
  Ok (rows ++ cols ++ diags).

Definition cond_zero (d : nat) : str := zfill (skipn 2 (bin 0)) d.
Definition cond_one (d : nat) : str := zfill (skipn 2 (bin (2 ^ d - 1))) d.

(** [_win_check], with [qnum] the field of the environment it reads.
    [int(np.sqrt(qnum))] is the integer square root. *)
Definition _win_check (qnum : nat) (board : str) : result nat :=
  let d := Nat.sqrt qnum in
  lines <- board_lines d board ;;
  match win_loop (cond_zero d) (cond_one d) lines 0 with
  | inl w => Ok w
  | inr w => Ok w
  end.

(** [out_dict = {1: [], 2: [], 0: []}] as a record of its three lists. *)
Record outcomes : Type := mk_outcomes {
  wins_1 : list nat;
  wins_2 : list nat;
  draws_0 : list nat
}.

Definition outcomes_get (o : outcomes) (w : nat) : result (list nat) :=
  match w with
  | 0 => Ok (draws_0 o)
  | 1 => Ok (wins_1 o)
  | 2 => Ok (wins_2 o)
  | _ => Raise (KeyError (Z.of_nat w))
  end.

(** [out_dict[winner].append(x)] *)
Definition outcomes_append (o : outcomes) (w x : nat) : result outcomes :=
  match w with
  | 0 => Ok (mk_outcomes (wins_1 o) (wins_2 o) (draws_0 o ++ [x]))
  | 1 => Ok (mk_outcomes (wins_1 o ++ [x]) (wins_2 o) (draws_0 o))
  | 2 => Ok (mk_outcomes (wins_1 o) (wins_2 o ++ [x]) (draws_0 o))
  | _ => Raise (KeyError (Z.of_nat w))
  end.

Definition board_of (qnum x : nat) : str := zfill (skipn 2 (bin x)) qnum.

Definition _init_outcomes_dict (qnum : nat) : result outcomes :=
  let out_dict := mk_outcomes [] [] [] in
  let all_states := map (board_of qnum) (range (2 ^ qnum)) in
  for_each all_states
    (fun out_dict state =>
       winner <- _win_check qnum state ;;
       x <- int2 state ;;
       outcomes_append out_dict winner x)
    out_dict.

(** ** The board circuit and its state vector *)

(** Complex amplitudes, as pairs of reals. *)
Definition C : Type := (R * R)%type.

Definition RtoC (x : R) : C := (x, 0%R).
Definition C0 : C := RtoC 0.
Definition C1 : C := RtoC 1.
Definition Cplus (a b : C) : C := (fst a + fst b, snd a + snd b)%R.
Definition Cmult (a b : C) : C :=
  (fst a * fst b - snd a * snd b, fst a * snd b + snd a * fst b)%R.

(** [abs(z) ** 2] *)
Definition Cnorm2 (z : C) : R := (fst z * fst z + snd z * snd z)%R.

Fixpoint Csum (f : nat -> C) (n : nat) : C :=
  match n with
  | O => C0
  | S n' => Cplus (Csum f n') (f n')
  end.

(** The matrix each gate denotes (row, column), in the simulator's
    little-endian convention: for [CXGate] the first qubit argument, the
    control, is the low bit of the row and column index. *)
Definition gate_arity (g : Gate) : nat :=
  match g with
  | HGate | XGate => 1
  | CXGate => 2
  end.

Definition to_matrix (g : Gate) (r c : nat) : C :=
  match g with
  | HGate => if (r =? 1) && (c =? 1) then RtoC (- / sqrt 2) else RtoC (/ sqrt 2)
  | XGate => if r + c =? 1 then C1 else C0
  | CXGate =>
      match r, c with
      | 0, 0 | 2, 2 | 1, 3 | 3, 1 => C1
      | _, _ => C0
      end
  end.

(** Amplitudes by basis index; bit [q] of the index is qubit [q]. *)
Definition amplitudes : Type := nat -> C.

Definition set_bit (i q : nat) (b : bool) : nat :=
  if b then Nat.setbit i q else Nat.clearbit i q.

(** The bits of [i] at the qubits [qs], first qubit lowest. *)
Fixpoint gather (qs : list nat) (i : nat) : nat :=
  match qs with
  | [] => 0
  | q :: qs' => Nat.b2n (Nat.testbit i q) + 2 * gather qs' i
  end.

(** [i] with the bits at the qubits [qs] replaced by those of [j]. *)
Fixpoint scatter (qs : list nat) (j i : nat) : nat :=
  match qs with
  | [] => i
  | q :: qs' => scatter qs' (Nat.div2 j) (set_bit i q (Nat.odd j))
  end.

(** A gate on the qubits [qs], embedded in the whole register: the gate's
    matrix acts on the bits at [qs] and leaves the others as they are. *)
Definition apply_gate (g : Gate) (qs : list nat) (psi : amplitudes)
  : amplitudes :=
  fun i =>
    Csum (fun j => Cmult (to_matrix g (gather qs i) j) (psi (scatter qs j i)))
         (2 ^ List.length qs).

(** [QuantumCircuit(n)] and [QuantumCircuit(n, m)]: the instructions in the
    order they were appended. *)
Record QuantumCircuit : Type := mk_circuit {
  num_qubits : nat;
  num_clbits : nat;
  data : list (Gate * list nat)
}.

Fixpoint nodupb (l : list nat) : bool :=
  match l with
  | [] => true
  | x :: l' => negb (existsb (Nat.eqb x) l') && nodupb l'
  end.

(** [circuit.append(gate, qubits)]: the circuit library rejects a qubit
    index out of range, a repeated qubit and a wrong number of qubits. *)
Definition circuit_append (c : QuantumCircuit) (g : Gate) (qs : list nat)
  : result QuantumCircuit :=
  if forallb (fun q => q <? num_qubits c) qs
     && nodupb qs
     && (List.length qs =? gate_arity g)
  then Ok (mk_circuit (num_qubits c) (num_clbits c) (data c ++ [(g, qs)]))
  else Raise CircuitError.

(** [circuit.h(qubits)]: one Hadamard per listed qubit, in order. *)
Definition circuit_h (c : QuantumCircuit) (qs : list nat)
  : result QuantumCircuit :=
  for_each qs (fun c q => circuit_append c HGate [q]) c.

(** The state the statevector backend computes: the instructions applied in
    order to the all-zero basis state. The amplitudes here are the exact
    real and imaginary parts; the backend holds double-precision floats
    that approximate them. *)
Definition ket0 : amplitudes := fun i => if i =? 0 then C1 else C0.

Definition run_gates (instrs : list (Gate * list nat)) (psi : amplitudes)
  : amplitudes :=
  fold_left (fun psi gq => apply_gate (fst gq) (snd gq) psi) instrs psi.

Definition statevector (c : QuantumCircuit) : amplitudes :=
  run_gates (data c) ket0.

(** [result.get_statevector()]: the [2 ** n] amplitudes in index order. *)
Definition get_statevector (c : QuantumCircuit) : list C :=
  map (statevector c) (range (2 ^ num_qubits c)).

(** [np.around(v, decimals=2)]: each part scaled by 100, rounded to the
    nearest integer with ties to even, and scaled back. *)
Definition rint (x : R) : Z :=
  let f := Int_part x in
  let r := (x - IZR f)%R in
  if Rlt_dec r (1 / 2) then f
  else if Rlt_dec (1 / 2) r then (f + 1)%Z
  else if Z.even f then f else (f + 1)%Z.

Definition around2 (x : R) : R := (IZR (rint (x * 100)) / 100)%R.

Definition Caround2 (z : C) : C := (around2 (fst z), around2 (snd z)).

(** Sum of the squared magnitudes of a vector. *)
Definition sum_sq (v : list C) : R :=
  fold_right (fun z acc => (Cnorm2 z + acc)%R) 0%R v.

(** ** The environment *)

Record QTicTacToeEnv : Type := mk_env {
  qnum : nat;
  circuit : QuantumCircuit;
  moves : dict Move;
  action_space : nat;
  endings_lookuptable : outcomes;
  status_id : str
}.

Definition set_circuit (self : QTicTacToeEnv) (c : QuantumCircuit) :=
  mk_env (qnum self) c (moves self) (action_space self)
         (endings_lookuptable self) (status_id self).

Definition set_status_id (self : QTicTacToeEnv) (s : str) :=
  mk_env (qnum self) (circuit self) (moves self) (action_space self)
         (endings_lookuptable self) s.

(** [spaces.Discrete(n)] asserts a positive number of actions. *)
Definition Discrete (n : nat) : result nat :=
  if 0 <? n then Ok n else Raise AssertionError.

(** [__init__]. The two simulator backends it selects hold no state of
    the environment and are left out of the record. *)
Definition __init__ (grid_size : Z) : result QTicTacToeEnv :=
  let qnum := Z.to_nat (grid_size ^ 2) in
  let circuit := mk_circuit qnum 0 [] in
  let moves := _init_moves_dict qnum in
  action_space <- Discrete (List.length moves) ;;
  endings_lookuptable <- _init_outcomes_dict qnum ;;
  Ok (mk_env qnum circuit moves action_space endings_lookuptable []).

(** Methods that update [self] and may raise: the environment after the
    call, with the value returned or the exception raised. *)
Definition method (A : Type) : Type :=
  QTicTacToeEnv -> QTicTacToeEnv * result A.

(** [move]: the identifier is recorded in [status_id] first, then the
    move is looked up (twice) and appended to the circuit. *)
Definition move (action : Z) : method unit :=
  fun self =>
    let self := set_status_id self (status_id self ++ format_action action) in
    match
      (m1 <- dict_get (moves self) action ;;
       m0 <- dict_get (moves self) action ;;
       circuit_append (circuit self) (snd m1) (fst m0))
    with
    | Ok c => (set_circuit self c, Ok tt)
    | Raise e => (self, Raise e)
    end.

(** [_get_statevec]. The rounding is applied to the exact amplitudes: where
    one lies midway between two multiples of 0.01, the float the code
    rounds may fall on either side of it. *)
Definition _get_statevec (self : QTicTacToeEnv) : list C :=
  let output_state := get_statevector (circuit self) in
  map Caround2 output_state.

(** [check_end]; the message it prints is not modelled. *)
Definition check_end (self : QTicTacToeEnv) (board_state : nat) : nat :=
  if existsb (Nat.eqb board_state) (wins_1 (endings_lookuptable self)) then 1
  else if existsb (Nat.eqb board_state) (wins_2 (endings_lookuptable self))
  then 2
  else 0.

(** [step]: the new state, the static reward and [done = False]. *)
Definition step (action : Z) : method (list C * R * bool) :=
  fun self =>
    match move action self with
    | (self, Ok _) =>
        let new_state := _get_statevec self in
        let reward := (- (1 / 10))%R in
        (self, Ok (new_state, reward, false))
    | (self, Raise e) => (self, Raise e)
    end.

(** [reset] *)
Definition reset : method (list C) :=
  fun self =>
    let self := set_circuit self (mk_circuit (qnum self) (qnum self) []) in
    match circuit_h (circuit self) (range (qnum self)) with
    | Ok c =>
        let self := set_circuit self c in
        let self := set_status_id self [] in
        (self, Ok (_get_statevec self))
    | Raise e => (self, Raise e)
    end.

(** A sequence of [step] calls, stopping at the first exception. *)
Fixpoint steps (actions : list Z) : method unit :=
  fun self =>
    match actions with
    | [] => (self, Ok tt)
    | a :: rest =>
        match step a self with
        | (self, Ok _) => steps rest self
        | (self, Raise e) => (self, Raise e)
        end
    end.

(** ** Notions used in the statements and the proofs *)

(** The cell in row [i] and column [j] of a board given by its rows. *)
Definition cell (rows : list str) (i j : nat) : ascii :=
  nth j (nth i rows []) "0"%char.

(** [d] rows of [d] cells each. *)
Definition square (d : nat) (rows : list str) : Prop :=
  List.length rows = d /\ forall r, In r rows -> List.length r = d.

(** The lines [board_lines] returns on a board of at least [d * d] cells. *)
Definition lines_of (d : nat) (board : str) : list str :=
  let rows := board_rows d board in
  rows
  ++ map (fun j => map (fun i => cell rows i j) (range d)) (range d)
  ++ [map (fun i => cell rows i i) (range d);
      map (fun i => cell rows i (d - i - 1)) (range d)].

(** The value [_win_check] returns after the scan, early or not. *)
Definition loop_value (r : nat + nat) : nat :=
  match r with
  | inl w => w
  | inr w => w
  end.

(** Whether the line [c] is among [lines]. *)
Definition has_line (c : str) (lines : list str) : bool :=
  existsb (fun line => str_eqb line c) lines.

(** The label for a board with ([h1]) or without a zero line and with
    ([h2]) or without a one line. *)
Definition verdict (h1 h2 : bool) : nat :=
  if h1 && h2 then 0 else if h1 then 1 else if h2 then 2 else 0.

(** Whether [_win_check] labels the board of index [x] with [w]. *)
Definition label_is (qnum w x : nat) : bool :=
  match _win_check qnum (board_of qnum x) with
  | Ok w' => w' =? w
  | Raise _ => false
  end.

(** The table after the loop of [_init_outcomes_dict] has run over the
    indices [xs], starting from the table [o]. *)
Definition table_of (qnum : nat) (xs : list nat) (o : outcomes) : outcomes :=
  mk_outcomes (wins_1 o ++ filter (label_is qnum 1) xs)
              (wins_2 o ++ filter (label_is qnum 2) xs)
              (draws_0 o ++ filter (label_is qnum 0) xs).

(** The entries of the table, in the order of their identifiers. *)
Definition move_list (n : nat) : list Move :=
  flat_map (fun q => [([q], HGate); ([q], XGate)]) (range n)
  ++ map (fun ct => ([fst ct; snd ct], CXGate)) (permutations2 (range n)).

(** The dictionary that gives the values [vs] the keys [k], [k + 1], ... *)
Fixpoint enumerate (k : Z) (vs : list Move) : dict Move :=
  match vs with
  | [] => []
  | v :: vs' => (k, v) :: enumerate (k + 1) vs'
  end.

(** The state [(mvs_dict, mv_indx)] of the loops of [_init_moves_dict] once
    the entries [vs] are in the table. *)
Definition table_state (vs : list Move) : dict Move * Z :=
  (enumerate 0 vs, Z.of_nat (List.length vs)).

(** The elements of [l] other than [x]. *)
Definition others (x : nat) (l : list nat) : list nat :=
  filter (fun y => negb (y =? x)) l.

(** The environment [__init__] builds for [n] qubits. *)
Definition env_of (n : nat) : QTicTacToeEnv :=
  mk_env n (mk_circuit n 0 []) (_init_moves_dict n)
         (List.length (_init_moves_dict n))
         (mk_outcomes (filter (label_is n 1) (range (2 ^ n)))
                      (filter (label_is n 2) (range (2 ^ n)))
                      (filter (label_is n 0) (range (2 ^ n))))
         [].

(** The index that differs from [i] in bit [q] only. *)
Definition flip (i q : nat) : nat := Nat.lxor i (2 ^ q).

(** The sum of a list of reals. *)
Definition Rsum (l : list R) : R := fold_right Rplus 0%R l.

(** The sum of the squared magnitudes of the first [2 ^ n] amplitudes. *)
Definition norm2 (n : nat) (psi : amplitudes) : R :=
  Rsum (map (fun i => Cnorm2 (psi i)) (seq 0 (2 ^ n))).

(** The index whose amplitude a controlled-X gate moves to index [i]. *)
Definition cx_index (c t i : nat) : nat :=
  if Nat.testbit i c then flip i t else i.

(** The part of [|H psi i|^2] that changes sign with bit [q] of [i]. *)
Definition cross (q : nat) (psi : amplitudes) (i : nat) : R :=
  ((if Nat.testbit i q then -1 else 1)
   * (fst (psi i) * fst (psi (flip i q)) + snd (psi i) * snd (psi (flip i q))))%R.

(** The checks of [circuit.append] on an instruction of an [n]-qubit circuit. *)
Definition valid_instr (n : nat) (gq : Gate * list nat) : bool :=
  forallb (fun q => q <? n) (snd gq)
  && nodupb (snd gq)
  && (List.length (snd gq) =? gate_arity (fst gq)).

(** What [__init__] establishes and [move] and [reset] keep. *)
Definition wf_env (self : QTicTacToeEnv) : Prop :=
  moves self = _init_moves_dict (qnum self)
  /\ num_qubits (circuit self) = qnum self
  /\ forallb (valid_instr (qnum self)) (data (circuit self)) = true.

(** The instructions [circuit.h(qs)] appends. *)
Definition h_layer (qs : list nat) : list (Gate * list nat) :=
  map (fun q => (HGate, [q])) qs.

(** The environment [reset] leaves. *)
Definition reset_env (self : QTicTacToeEnv) : QTicTacToeEnv :=
  mk_env (qnum self)
         (mk_circuit (qnum self) (qnum self) (h_layer (range (qnum self))))
         (moves self) (action_space self) (endings_lookuptable self) [].

(** Hadamard gates on the qubits [0 .. k-1] of the all-zero state: the
    amplitude [(1 / sqrt 2) ^ k] on the first [2 ^ k] indices. *)
Definition uniform (k : nat) : amplitudes :=
  fun i => if i <? 2 ^ k then RtoC ((/ sqrt 2) ^ k) else C0.

(** The environment after a move [m] of the table is made. *)
Definition after_move (self : QTicTacToeEnv) (m : Move) (action : Z)
  : QTicTacToeEnv :=
  mk_env (qnum self)
         (mk_circuit (num_qubits (circuit self)) (num_clbits (circuit self))
                     (data (circuit self) ++ [(snd m, fst m)]))
         (moves self) (action_space self) (endings_lookuptable self)
         (status_id self ++ format_action action).

(** The character [board[i * d + j]], the cell in row [i] and column [j]
    of the row-major grid. *)
Definition grid (d : nat) (board : str) (i j : nat) : ascii :=
  nth (i * d + j) board "0"%char.

(** The character of a bit. *)
Definition bit_char (b : bool) : ascii := if b then "1"%char else "0"%char.

(** The other binary digit; any other character is left as it is. *)
Definition compl_char (c : ascii) : ascii :=
  if Ascii.eqb c "0" then "1"%char
  else if Ascii.eqb c "1" then "0"%char
  else c.

(** The index with each of its [n] bits complemented. *)
Definition compl_index (n x : nat) : nat := Nat.lxor x (Nat.ones n).

(** The label with the two players exchanged. *)
Definition swap_players (w : nat) : nat :=
  match w with
  | 1 => 2
  | 2 => 1
  | _ => w
  end.

(** The basis state of index [k]. *)
Definition ket (k : nat) : amplitudes := fun i => if i =? k then C1 else C0.

(** What a gate that permutes the basis states does to the index [k]. *)
Definition classical_gate (gq : Gate * list nat) (k : nat) : nat :=
  match gq with
  | (XGate, [q]) => flip k q
  | (CXGate, [c; t]) => if Nat.testbit k c then flip k t else k
  | _ => k
  end.

(** Whether the instruction is a Pauli-X or a controlled-X gate. *)
Definition is_classical (gq : Gate * list nat) : bool :=
  match fst gq with
  | HGate => false
  | XGate | CXGate => true
  end.

(** The single key of the counts after [measure_all] and one shot that
    measured the basis state [outcome]: the measured bits, highest qubit
    first, then, when the circuit was created with classical bits, a space
    and those bits, which no instruction writes. *)
Definition counts_key (c : QuantumCircuit) (outcome : nat) : str :=
  board_of (num_qubits c) outcome
  ++ (if num_clbits c =? 0 then []
      else " "%char :: repeat "0"%char (num_clbits c)).

(** [collapse_board], its value: the basis state the simulator samples is
    the parameter [outcome]; the measurements [measure_all] appends to the
    circuit are not part of the model. *)
Definition collapse_board (outcome : nat) (self : QTicTacToeEnv) : result nat :=
  let key := counts_key (circuit self) outcome in
  int2 (slice key 0 (qnum self)).

(** The identifier of the controlled-X move on [(c, t)] among [n] qubits:
    the pairs follow the [2 * n] single-qubit moves, grouped by control. *)
Definition cx_id (n c t : nat) : Z :=
  Z.of_nat (2 * n + c * (n - 1) + (if t <? c then t else t - 1)).

(** * Properties *)

(** ** Loops and comprehensions *)

Lemma for_each_app {A S} (body : S -> A -> result S) (l1 l2 : list A) (s : S) :
  for_each (l1 ++ l2) body s = (s' <- for_each l1 body s ;; for_each l2 body s').
Proof.
  revert s. induction l1 as [|x l1 IH]; intros s; simpl; [reflexivity|].
  destruct (body s x) as [s'|e]; simpl; [apply IH | reflexivity].
Qed.

Lemma comprehension_ok {A B} (f : A -> result B) (g : A -> B) (l : list A) :
  (forall x, In x l -> f x = Ok (g x)) ->
  comprehension f l = Ok (map g l).
Proof.
  induction l as [|x l IH]; intros H; simpl; [reflexivity|].
  rewrite (H x) by (left; reflexivity). simpl.
  rewrite IH by (intros y Hy; apply H; right; exact Hy). reflexivity.
Qed.

Lemma index_nth {A} (s : list A) (i : nat) (dflt : A) :
  i < List.length s -> index s i = Ok (nth i s dflt).
Proof.
  intros H. unfold index.
  rewrite (nth_error_nth' s dflt H). reflexivity.
Qed.

(** ** Strings of binary digits *)

Lemma repeat_snoc {A} (a : A) (n : nat) : repeat a n ++ [a] = repeat a (S n).
Proof. symmetry. apply (repeat_cons n a). Qed.

Lemma bin_pos_length (p : positive) (n : nat) :
  Pos.to_nat p < 2 ^ n -> List.length (bin_pos p) <= n.
Proof.
  revert n. induction p as [p IH|p IH|]; intros n H; simpl.
  - destruct n as [|n]; [simpl in H; lia|].
    rewrite length_app. simpl.
    assert (Pos.to_nat p < 2 ^ n) by (rewrite Pos2Nat.inj_xI in H; simpl in H; lia).
    specialize (IH n); lia.
  - destruct n as [|n]; [simpl in H; lia|].
    rewrite length_app. simpl.
    assert (Pos.to_nat p < 2 ^ n) by (rewrite Pos2Nat.inj_xO in H; simpl in H; lia).
    specialize (IH n); lia.
  - destruct n as [|n]; [simpl in H; lia|]. lia.
Qed.

Lemma bin_pos_nonempty (p : positive) : 1 <= List.length (bin_pos p).
Proof. destruct p; simpl; rewrite ?length_app; simpl; lia. Qed.

Lemma bin_digits_pos (x : nat) (p : positive) :
  N.of_nat x = Npos p -> Pos.to_nat p = x.
Proof.
  intros E. apply (f_equal N.to_nat) in E. rewrite Nat2N.id in E.
  simpl in E. lia.
Qed.

Lemma bin_digits_length (n x : nat) :
  x < 2 ^ n -> 1 <= n -> List.length (bin_digits x) <= n.
Proof.
  intros Hx Hn. unfold bin_digits.
  destruct (N.of_nat x) as [|p] eqn:E; simpl List.length; [lia|].
  apply bin_pos_length. rewrite (bin_digits_pos _ _ E). exact Hx.
Qed.

Lemma bin_digits_nonempty (x : nat) : 1 <= List.length (bin_digits x).
Proof.
  unfold bin_digits. destruct (N.of_nat x); [simpl; lia|].
  apply bin_pos_nonempty.
Qed.

Lemma board_of_digits (n x : nat) :
  board_of n x = repeat "0"%char (n - List.length (bin_digits x)) ++ bin_digits x.
Proof. reflexivity. Qed.

Lemma board_of_length (n x : nat) :
  x < 2 ^ n -> 1 <= n -> List.length (board_of n x) = n.
Proof.
  intros Hx Hn. rewrite board_of_digits, length_app, repeat_length.
  pose proof (bin_digits_length _ _ Hx Hn). lia.
Qed.

Lemma board_of_length_ge (n x : nat) : n <= List.length (board_of n x).
Proof. rewrite board_of_digits, length_app, repeat_length. lia. Qed.

Lemma parse_zeros (k : nat) (s : str) :
  for_each (repeat "0"%char k ++ s) parse_step 0 = for_each s parse_step 0.
Proof. induction k as [|k IH]; simpl; [reflexivity | exact IH]. Qed.

Lemma parse_bin_pos (p : positive) :
  for_each (bin_pos p) parse_step 0 = Ok (Pos.to_nat p).
Proof.
  induction p as [p IH|p IH|]; simpl; [| |reflexivity];
    rewrite for_each_app, IH; simpl; f_equal; lia.
Qed.

(** [int(bin(x)[2:].zfill(n), 2) == x] *)
Lemma int2_board_of (n x : nat) : int2 (board_of n x) = Ok x.
Proof.
  unfold int2.
  assert (E : for_each (board_of n x) parse_step 0 = Ok x).
  { rewrite board_of_digits, parse_zeros. unfold bin_digits.
    destruct (N.of_nat x) as [|p] eqn:E.
    - simpl. f_equal. lia.
    - rewrite parse_bin_pos. f_equal. apply (bin_digits_pos _ _ E). }
  destruct (board_of n x) eqn:B; [|exact E].
  exfalso. apply (f_equal (@List.length ascii)) in B.
  rewrite board_of_digits, length_app in B. simpl in B.
  pose proof (bin_digits_nonempty x). lia.
Qed.

Lemma cond_zero_repeat (d : nat) : 1 <= d -> cond_zero d = repeat "0"%char d.
Proof.
  intros H. unfold cond_zero, zfill. simpl.
  replace d with (S (d - 1)) at 2 by lia. rewrite <- repeat_snoc. reflexivity.
Qed.

Lemma bin_digits_ones (d : nat) :
  bin_digits (2 ^ S d - 1) = repeat "1"%char (S d).
Proof.
  induction d as [|d IH]; [reflexivity|].
  assert (P : 2 ^ S (S d) = 2 * 2 ^ S d) by apply Nat.pow_succ_r'.
  assert (Q : S d < 2 ^ S d) by (apply Nat.pow_gt_lin_r; lia).
  unfold bin_digits in *.
  destruct (N.of_nat (2 ^ S d - 1)) as [|p] eqn:E.
  - exfalso. lia.
  - replace (N.of_nat (2 ^ S (S d) - 1)) with (N.pos (xI p)) by lia.
    simpl bin_pos. rewrite IH. apply repeat_snoc.
Qed.

Lemma cond_one_repeat (d : nat) : 1 <= d -> cond_one d = repeat "1"%char d.
Proof.
  intros H. unfold cond_one, zfill, bin. simpl skipn. destruct d as [|d]; [lia|].
  rewrite bin_digits_ones, repeat_length, Nat.sub_diag. reflexivity.
Qed.

(** ** Rows, columns and diagonals *)

Lemma slice_incl {A} (s : list A) (a b : nat) : incl (slice s a b) s.
Proof.
  intros x H. unfold slice in H.
  rewrite <- (firstn_skipn a s). apply in_or_app. right.
  rewrite <- (firstn_skipn (b - a) (skipn a s)). apply in_or_app. left. exact H.
Qed.

Lemma board_rows_square (d : nat) (board : str) :
  d * d <= List.length board -> square d (board_rows d board).
Proof.
  intros H. unfold square, board_rows, range. rewrite length_map, length_seq.
  split; [reflexivity|]. intros r Hr.
  apply in_map_iff in Hr. destruct Hr as [i [<- Hi]]. apply in_seq in Hi.
  unfold slice. rewrite length_firstn, length_skipn. nia.
Qed.

Lemma board_rows_incl (d : nat) (board : str) (r : str) :
  In r (board_rows d board) -> incl r board.
Proof.
  intros Hr. apply in_map_iff in Hr. destruct Hr as [i [<- _]].
  apply slice_incl.
Qed.

Lemma index_cell (d : nat) (rows : list str) (i j : nat) :
  square d rows -> i < d -> j < d ->
  (r <- index rows i ;; index r j) = Ok (cell rows i j).
Proof.
  intros [Hl Hr] Hi Hj.
  rewrite (@index_nth _ rows i []) by lia. simpl.
  apply index_nth. rewrite Hr; [exact Hj|]. apply nth_In. lia.
Qed.

Lemma board_cols_ok (d : nat) (rows : list str) :
  square d rows ->
  board_cols d rows =
  Ok (map (fun j => map (fun i => cell rows i j) (range d)) (range d)).
Proof.
  intros Hsq. unfold board_cols. apply comprehension_ok. intros j Hj.
  apply comprehension_ok. intros i Hi.
  apply in_seq in Hi, Hj. apply (index_cell _ _ _ _ Hsq); lia.
Qed.

Lemma board_diags_ok (d : nat) (rows : list str) :
  square d rows ->
  board_diags d rows =
  Ok [map (fun i => cell rows i i) (range d);
      map (fun i => cell rows i (d - i - 1)) (range d)].
Proof.
  intros Hsq. unfold board_diags.
  rewrite (@comprehension_ok _ _ _ (fun i => cell rows i i)).
  2:{ intros i Hi. apply in_seq in Hi. apply (index_cell _ _ _ _ Hsq); lia. }
  simpl.
  rewrite (@comprehension_ok _ _ _ (fun i => cell rows i (d - i - 1))).
  2:{ intros i Hi. apply in_seq in Hi. apply (index_cell _ _ _ _ Hsq); lia. }
  reflexivity.
Qed.

Lemma board_lines_ok (d : nat) (board : str) :
  d * d <= List.length board -> board_lines d board = Ok (lines_of d board).
Proof.
  intros H. pose proof (board_rows_square d board H) as Hsq.
  unfold board_lines. rewrite (board_cols_ok _ _ Hsq). simpl.
  rewrite (board_diags_ok _ _ Hsq). reflexivity.
Qed.

Lemma cell_in_board (d : nat) (board : str) (i j : nat) :
  d * d <= List.length board -> i < d -> j < d ->
  In (cell (board_rows d board) i j) board.
Proof.
  intros H Hi Hj. destruct (board_rows_square d board H) as [Hl Hr].
  assert (Hin : In (nth i (board_rows d board) []) (board_rows d board))
    by (apply nth_In; lia).
  apply (board_rows_incl _ _ _ Hin). unfold cell. apply nth_In.
  rewrite (Hr _ Hin). exact Hj.
Qed.

(** Every line has [d] cells, each one a character of the board. *)
Lemma lines_of_cells (d : nat) (board : str) (line : str) :
  d * d <= List.length board -> In line (lines_of d board) ->
  List.length line = d /\ incl line board.
Proof.
  intros H Hin. unfold lines_of in Hin.
  destruct (board_rows_square d board H) as [Hl Hr].
  assert (Hmap : forall f : nat -> nat * nat,
             (forall i, i < d -> fst (f i) < d /\ snd (f i) < d) ->
             let l := map (fun i => cell (board_rows d board)
                                         (fst (f i)) (snd (f i))) (range d) in
             List.length l = d /\ incl l board).
  { intros f Hf l. subst l. unfold range. rewrite length_map, length_seq.
    split; [reflexivity|]. intros c Hc. apply in_map_iff in Hc.
    destruct Hc as [i [<- Hi]]. apply in_seq in Hi.
    destruct (Hf i) as [? ?]; [lia|]. apply cell_in_board; assumption. }
  apply in_app_or in Hin. destruct Hin as [Hin|Hin].
  { split; [apply Hr; exact Hin | apply (board_rows_incl _ _ _ Hin)]. }
  apply in_app_or in Hin. destruct Hin as [Hin|Hin].
  { apply in_map_iff in Hin. destruct Hin as [j [<- Hj]]. apply in_seq in Hj.
    apply (Hmap (fun i => (i, j))). simpl. lia. }
  destruct Hin as [<-|[<-|[]]].
  - apply (Hmap (fun i => (i, i))). simpl. lia.
  - apply (Hmap (fun i => (i, d - i - 1))). simpl. lia.
Qed.

Lemma lines_of_nonempty (d : nat) (board : str) :
  1 <= d -> exists line rest, lines_of d board = line :: rest.
Proof.
  intros H. unfold lines_of, board_rows, range.
  destruct d as [|d]; [lia|]. simpl. eauto.
Qed.

(** ** The scan of the lines *)

Lemma str_eqb_eq (a b : str) : str_eqb a b = true <-> a = b.
Proof.
  unfold str_eqb. destruct (list_eq_dec ascii_dec a b); split; congruence.
Qed.

Lemma str_eqb_refl (a : str) : str_eqb a a = true.
Proof. apply str_eqb_eq. reflexivity. Qed.

Lemma has_line_In (c : str) (lines : list str) :
  has_line c lines = true <-> In c lines.
Proof.
  unfold has_line. rewrite existsb_exists. split.
  - intros [l [Hl E]]. apply str_eqb_eq in E. subst. exact Hl.
  - intros H. exists c. split; [exact H | apply str_eqb_refl].
Qed.

Lemma win_loop_spec (c1 c2 : str) (lines : list str) (w : nat) :
  c1 <> c2 -> w <= 2 ->
  loop_value (win_loop c1 c2 lines w) =
  verdict (has_line c1 lines || (w =? 1)) (has_line c2 lines || (w =? 2)).
Proof.
  intros Hc. revert w. induction lines as [|line rest IH]; intros w Hw.
  - destruct w as [|[|[|w]]]; [reflexivity | reflexivity | reflexivity | lia].
  - simpl. destruct (str_eqb line c1) eqn:E1.
    + assert (E2 : str_eqb line c2 = false).
      { apply str_eqb_eq in E1. subst line.
        destruct (str_eqb c1 c2) eqn:E; [|reflexivity].
        apply str_eqb_eq in E. contradiction. }
      rewrite E2. simpl.
      destruct w as [|[|[|w]]]; simpl; [| | |lia].
      * rewrite IH by lia. rewrite !orb_true_r. reflexivity.
      * rewrite IH by lia. rewrite !orb_true_r. reflexivity.
      * rewrite !orb_true_r. reflexivity.
    + simpl. destruct (str_eqb line c2) eqn:E2; simpl.
      * destruct w as [|[|[|w]]]; simpl; [| | |lia].
        -- rewrite IH by lia. rewrite !orb_true_r, !orb_false_r.
           reflexivity.
        -- rewrite !orb_true_r. reflexivity.
        -- rewrite IH by lia. rewrite !orb_true_r. reflexivity.
      * apply IH. exact Hw.
Qed.

Lemma verdict_le (h1 h2 : bool) : verdict h1 h2 <= 2.
Proof. destruct h1, h2; unfold verdict; simpl; lia. Qed.

Lemma repeat_zero_one (d : nat) :
  1 <= d -> repeat "0"%char d <> repeat "1"%char d.
Proof. destruct d; [lia|]. simpl. discriminate. Qed.

(** [_win_check] returns on every board that has at least [d * d] cells,
    and its value is the verdict on the lines of the board. *)
Lemma win_check_verdict (qnum : nat) (board : str) :
  let d := Nat.sqrt qnum in
  1 <= d -> d * d <= List.length board ->
  _win_check qnum board =
  Ok (verdict (has_line (repeat "0"%char d) (lines_of d board))
              (has_line (repeat "1"%char d) (lines_of d board))).
Proof.
  intros d Hd Hlen. unfold _win_check. fold d.
  rewrite (board_lines_ok _ _ Hlen). simpl.
  rewrite (cond_zero_repeat _ Hd), (cond_one_repeat _ Hd).
  pose proof (win_loop_spec (repeat "0"%char d) (repeat "1"%char d)
                (lines_of d board) 0 (repeat_zero_one d Hd) (Nat.le_0_l 2)) as L.
  simpl Nat.eqb in L. rewrite !orb_false_r in L. rewrite <- L.
  destruct (win_loop _ _ _ _); reflexivity.
Qed.

Lemma win_check_total (qnum : nat) (board : str) :
  Nat.sqrt qnum * Nat.sqrt qnum <= List.length board ->
  exists w, _win_check qnum board = Ok w /\ w <= 2.
Proof.
  intros Hlen. destruct (Nat.sqrt qnum) as [|d'] eqn:E.
  - exists 0. unfold _win_check. rewrite E. split; [reflexivity | lia].
  - pose proof (win_check_verdict qnum board) as V. simpl in V.
    rewrite E in V. eexists. split; [apply V; [lia | exact Hlen]|].
    apply verdict_le.
Qed.

(** ** The lookup table *)

Lemma sqrt_square_le (n : nat) : Nat.sqrt n * Nat.sqrt n <= n.
Proof. apply Nat.sqrt_spec. lia. Qed.

Lemma win_check_board_of (qnum x : nat) :
  exists w, _win_check qnum (board_of qnum x) = Ok w /\ w <= 2.
Proof.
  apply win_check_total.
  pose proof (sqrt_square_le qnum). pose proof (board_of_length_ge qnum x). lia.
Qed.

Lemma outcomes_loop (qnum : nat) (xs : list nat) (o : outcomes) :
  for_each (map (board_of qnum) xs)
    (fun out_dict state =>
       winner <- _win_check qnum state ;;
       x <- int2 state ;;
       outcomes_append out_dict winner x)
    o
  = Ok (table_of qnum xs o).
Proof.
  revert o. induction xs as [|x xs IH]; intros o.
  - simpl. unfold table_of. simpl. rewrite !app_nil_r. destruct o; reflexivity.
  - simpl. destruct (win_check_board_of qnum x) as [w [Hw Hle]].
    rewrite Hw. simpl. rewrite int2_board_of. simpl.
    assert (L : forall v, label_is qnum v x = (w =? v))
      by (intros v; unfold label_is; rewrite Hw; reflexivity).
    destruct w as [|[|[|w]]]; [| | |lia]; simpl; rewrite IH;
      unfold table_of; simpl; rewrite !L; simpl;
      rewrite <- ?app_assoc; reflexivity.
Qed.

Lemma init_outcomes_table (qnum : nat) :
  _init_outcomes_dict qnum
  = Ok (mk_outcomes (filter (label_is qnum 1) (range (2 ^ qnum)))
                    (filter (label_is qnum 2) (range (2 ^ qnum)))
                    (filter (label_is qnum 0) (range (2 ^ qnum)))).
Proof. unfold _init_outcomes_dict. rewrite outcomes_loop. reflexivity. Qed.

Lemma existsb_eqb_In (x : nat) (l : list nat) :
  existsb (Nat.eqb x) l = true <-> In x l.
Proof.
  rewrite existsb_exists. split.
  - intros [y [Hy E]]. apply Nat.eqb_eq in E. subst. exact Hy.
  - intros H. exists x. split; [exact H | apply Nat.eqb_refl].
Qed.

Lemma label_is_functional (qnum v w x : nat) :
  label_is qnum v x = true -> label_is qnum w x = true -> v = w.
Proof.
  unfold label_is. destruct (_win_check qnum (board_of qnum x)); [|discriminate].
  intros A B. apply Nat.eqb_eq in A, B. congruence.
Qed.

(** ** The move table *)

Lemma enumerate_app (k : Z) (vs ws : list Move) :
  enumerate k (vs ++ ws)
  = enumerate k vs ++ enumerate (k + Z.of_nat (List.length vs)) ws.
Proof.
  revert k. induction vs as [|v vs IH]; intros k.
  - simpl. rewrite Z.add_0_r. reflexivity.
  - cbn [enumerate app List.length]. rewrite IH. simpl. do 3 f_equal. lia.
Qed.

Lemma dict_set_enumerate (k : Z) (vs : list Move) (v : Move) :
  dict_set (enumerate k vs) (k + Z.of_nat (List.length vs)) v
  = enumerate k (vs ++ [v]).
Proof.
  revert k. induction vs as [|w vs IH]; intros k.
  - simpl. rewrite Z.add_0_r. reflexivity.
  - cbn [enumerate app List.length dict_set].
    destruct (Z.eqb_spec k (k + Z.of_nat (S (List.length vs)))) as [E|_];
      [lia|].
    f_equal. rewrite <- IH. f_equal. lia.
Qed.

Lemma table_state_push (vs : list Move) (v : Move) :
  (dict_set (fst (table_state vs)) (snd (table_state vs)) v,
   (snd (table_state vs) + 1)%Z)
  = table_state (vs ++ [v]).
Proof.
  unfold table_state. simpl fst. simpl snd.
  rewrite <- (dict_set_enumerate 0 vs v). rewrite Z.add_0_l.
  f_equal. rewrite length_app. simpl. lia.
Qed.

Lemma moves_single_loop (qs : list nat) (vs : list Move) :
  fold_left moves_single qs (table_state vs)
  = table_state (vs ++ flat_map (fun q => [([q], HGate); ([q], XGate)]) qs).
Proof.
  revert vs. induction qs as [|q qs IH]; intros vs.
  - simpl. rewrite app_nil_r. reflexivity.
  - cbn [fold_left].
    assert (E : moves_single (table_state vs) q
                = table_state ((vs ++ [([q], HGate)]) ++ [([q], XGate)])).
    { rewrite <- !table_state_push. reflexivity. }
    rewrite E, IH. simpl. rewrite <- !app_assoc. reflexivity.
Qed.

Lemma moves_pair_loop (cts : list (nat * nat)) (vs : list Move) :
  fold_left moves_pair cts (table_state vs)
  = table_state (vs ++ map (fun ct => ([fst ct; snd ct], CXGate)) cts).
Proof.
  revert vs. induction cts as [|[c t] cts IH]; intros vs.
  - simpl. rewrite app_nil_r. reflexivity.
  - cbn [fold_left].
    assert (E : moves_pair (table_state vs) (c, t)
                = table_state (vs ++ [([c; t], CXGate)])).
    { rewrite <- table_state_push. reflexivity. }
    rewrite E, IH. simpl. rewrite <- !app_assoc. reflexivity.
Qed.

Lemma init_moves_enumerate (n : nat) :
  _init_moves_dict n = enumerate 0 (move_list n).
Proof.
  unfold _init_moves_dict.
  change (@nil (Z * Move), 0%Z) with (table_state []).
  rewrite moves_single_loop, moves_pair_loop. reflexivity.
Qed.

Lemma others_notin (x : nat) (l : list nat) : ~ In x l -> others x l = l.
Proof.
  intros H. unfold others. induction l as [|y l IH]; [reflexivity|].
  simpl. destruct (Nat.eqb_spec y x) as [E|E].
  - exfalso. apply H. left. exact E.
  - simpl. f_equal. apply IH. intros K. apply H. right. exact K.
Qed.

Lemma picks_nodup (l : list nat) :
  NoDup l -> picks l = map (fun x => (x, others x l)) l.
Proof.
  induction 1 as [|a r Ha Hr IH]; [reflexivity|].
  simpl. rewrite Nat.eqb_refl. simpl. rewrite (others_notin a r Ha).
  f_equal. rewrite IH, map_map. apply map_ext_in. intros x Hx. simpl.
  destruct (Nat.eqb_spec a x) as [E|E]; [subst; contradiction | reflexivity].
Qed.

Lemma permutations2_nodup (l : list nat) :
  NoDup l ->
  permutations2 l = flat_map (fun x => map (pair x) (others x l)) l.
Proof.
  intros H. unfold permutations2. rewrite (picks_nodup l H).
  rewrite flat_map_concat_map, map_map, <- flat_map_concat_map. reflexivity.
Qed.

Lemma permutations2_In (l : list nat) (c t : nat) :
  NoDup l -> (In (c, t) (permutations2 l) <-> In c l /\ In t l /\ c <> t).
Proof.
  intros H. rewrite (permutations2_nodup l H), in_flat_map. split.
  - intros [x [Hx Hin]]. apply in_map_iff in Hin.
    destruct Hin as [y [E Hy]]. inversion E; subst.
    apply filter_In in Hy. destruct Hy as [Hy Hn].
    destruct (Nat.eqb_spec t c); [discriminate|]. auto.
  - intros [Hc [Ht Hn]]. exists c. split; [exact Hc|].
    apply in_map. apply filter_In. split; [exact Ht|].
    destruct (Nat.eqb_spec t c); [congruence | reflexivity].
Qed.

Lemma NoDup_flat_map {A B} (f : A -> list B) (l : list A) :
  NoDup l -> (forall x, In x l -> NoDup (f x)) ->
  (forall x y b, In x l -> In y l -> In b (f x) -> In b (f y) -> x = y) ->
  NoDup (flat_map f l).
Proof.
  induction 1 as [|a r Ha Hr IH]; intros Hf Hd; simpl; [constructor|].
  apply NoDup_app.
  - apply Hf. left. reflexivity.
  - apply IH.
    + intros x Hx. apply Hf. right. exact Hx.
    + intros x y b Hx Hy. apply Hd; right; assumption.
  - intros b Hb Hb'. apply in_flat_map in Hb'. destruct Hb' as [y [Hy Hby]].
    assert (a = y) by (apply (Hd a y b); [left; reflexivity | right; exact Hy
                                          | exact Hb | exact Hby]).
    subst. contradiction.
Qed.

Lemma permutations2_NoDup (l : list nat) : NoDup l -> NoDup (permutations2 l).
Proof.
  intros H. rewrite (permutations2_nodup l H). apply NoDup_flat_map.
  - exact H.
  - intros x _. apply Finite.Injective_map_NoDup.
    + intros a b E. inversion E. reflexivity.
    + apply NoDup_filter. exact H.
  - intros x y b _ _ Hx Hy. apply in_map_iff in Hx, Hy.
    destruct Hx as [u [<- _]]. destruct Hy as [v [E _]]. inversion E.
    reflexivity.
Qed.

Lemma others_length (x : nat) (l : list nat) :
  NoDup l -> In x l -> S (List.length (others x l)) = List.length l.
Proof.
  induction 1 as [|a r Ha Hr IH]; intros Hx; [contradiction|].
  unfold others in *. simpl. destruct (Nat.eqb_spec a x) as [E|E]; simpl.
  - subst. f_equal. apply (f_equal (@List.length nat)).
    apply (others_notin x r Ha).
  - f_equal. apply IH. destruct Hx; [contradiction | assumption].
Qed.

Lemma flat_map_length_const {A B} (f : A -> list B) (l : list A) (k : nat) :
  (forall x, In x l -> List.length (f x) = k) ->
  List.length (flat_map f l) = List.length l * k.
Proof.
  induction l as [|a l IH]; intros H; simpl; [reflexivity|].
  rewrite length_app, IH, H; [reflexivity | left; reflexivity |].
  intros x Hx. apply H. right. exact Hx.
Qed.

Lemma permutations2_length (n : nat) :
  List.length (permutations2 (range n)) = n * (n - 1).
Proof.
  unfold range. rewrite (permutations2_nodup _ (seq_NoDup n 0)).
  rewrite (flat_map_length_const _ _ (n - 1)); [rewrite length_seq; reflexivity|].
  intros x Hx. rewrite length_map.
  pose proof (others_length x (seq 0 n) (seq_NoDup n 0) Hx) as L.
  rewrite length_seq in L. lia.
Qed.

Lemma move_list_length (n : nat) :
  List.length (move_list n) = 2 * n + n * (n - 1).
Proof.
  unfold move_list. rewrite length_app, length_map, permutations2_length.
  rewrite (flat_map_length_const _ _ 2) by reflexivity.
  unfold range. rewrite length_seq. lia.
Qed.

Lemma enumerate_keys (k : Z) (vs : list Move) :
  keys (enumerate k vs)
  = map (fun i => (k + Z.of_nat i)%Z) (seq 0 (List.length vs)).
Proof.
  revert k. induction vs as [|v vs IH]; intros k; [reflexivity|].
  unfold keys in *. cbn [enumerate map fst List.length seq].
  rewrite Z.add_0_r. f_equal. rewrite IH.
  rewrite <- seq_shift, map_map. apply map_ext. intros i. lia.
Qed.

Lemma enumerate_values (k : Z) (vs : list Move) : values (enumerate k vs) = vs.
Proof.
  revert k. induction vs as [|v vs IH]; intros k; [reflexivity|].
  simpl. f_equal. apply IH.
Qed.

Lemma enumerate_get (k : Z) (vs : list Move) (i : nat) (v : Move) :
  nth_error vs i = Some v ->
  dict_get (enumerate k vs) (k + Z.of_nat i) = Ok v.
Proof.
  revert k i. induction vs as [|w vs IH]; intros k i H.
  - destruct i; discriminate.
  - destruct i as [|i]; simpl in *.
    + rewrite Z.add_0_r, Z.eqb_refl. congruence.
    + destruct (Z.eqb_spec k (k + Z.pos (Pos.of_succ_nat i))) as [E|_]; [lia|].
      replace (k + Z.pos (Pos.of_succ_nat i))%Z with (k + 1 + Z.of_nat i)%Z
        by lia.
      apply IH. exact H.
Qed.

Lemma enumerate_get_In (k a : Z) (vs : list Move) :
  In a (keys (enumerate k vs)) ->
  exists v, dict_get (enumerate k vs) a = Ok v /\ In v vs.
Proof.
  rewrite enumerate_keys. intros H. apply in_map_iff in H.
  destruct H as [i [<- Hi]]. apply in_seq in Hi.
  destruct (nth_error vs i) as [v|] eqn:E.
  - exists v. split; [apply enumerate_get; exact E|].
    apply (nth_error_In _ _ E).
  - apply nth_error_None in E. lia.
Qed.

Lemma enumerate_get_missing (k a : Z) (vs : list Move) :
  ~ In a (keys (enumerate k vs)) ->
  dict_get (enumerate k vs) a = Raise (KeyError a).
Proof.
  revert k. induction vs as [|w vs IH]; intros k H; [reflexivity|].
  simpl in *. destruct (Z.eqb_spec k a) as [E|E].
  - exfalso. apply H. left. exact E.
  - apply IH. intros K. apply H. right. exact K.
Qed.

Lemma move_list_In (n : nat) (m : Move) :
  In m (move_list n) <->
  (exists q, q < n /\ (m = ([q], HGate) \/ m = ([q], XGate)))
  \/ (exists c t, c < n /\ t < n /\ c <> t /\ m = ([c; t], CXGate)).
Proof.
  unfold move_list. rewrite in_app_iff, in_flat_map, in_map_iff. split.
  - intros [[q [Hq Hm]]|[[c t] [Hm Hct]]].
    + left. exists q. apply in_seq in Hq. split; [lia|].
      destruct Hm as [<-|[<-|[]]]; auto.
    + right. apply permutations2_In in Hct; [|apply seq_NoDup].
      destruct Hct as [Hc [Ht Hn]]. apply in_seq in Hc, Ht.
      exists c, t. simpl in Hm. repeat split; try lia. congruence.
  - intros [[q [Hq Hm]]|[c [t [Hc [Ht [Hn Hm]]]]]].
    + left. exists q. split; [apply in_seq; lia|].
      destruct Hm as [->| ->]; simpl; auto.
    + right. exists (c, t). split; [subst; reflexivity|].
      apply permutations2_In; [apply seq_NoDup|].
      repeat split; try (apply in_seq; lia). exact Hn.
Qed.

Lemma move_list_NoDup (n : nat) : NoDup (move_list n).
Proof.
  unfold move_list. apply NoDup_app.
  - apply NoDup_flat_map.
    + apply seq_NoDup.
    + intros q _. constructor; [|constructor; [|constructor]]; simpl.
      * intros [E|[]]. discriminate.
      * intros [].
    + intros x y b _ _ Hx Hy.
      destruct Hx as [<-|[<-|[]]]; destruct Hy as [E|[E|[]]]; congruence.
  - apply Finite.Injective_map_NoDup.
    + intros [a b] [c d] E. simpl in E. congruence.
    + apply permutations2_NoDup. apply seq_NoDup.
  - intros m Hm Hm'. apply in_flat_map in Hm. destruct Hm as [q [_ Hq]].
    apply in_map_iff in Hm'. destruct Hm' as [ct [E _]].
    destruct Hq as [<-|[<-|[]]]; discriminate.
Qed.

(** ** Construction *)

Lemma enumerate_length (k : Z) (vs : list Move) :
  List.length (enumerate k vs) = List.length vs.
Proof.
  revert k. induction vs as [|v vs IH]; intros k; [reflexivity|].
  simpl. f_equal. apply IH.
Qed.

Lemma init_moves_length (n : nat) :
  List.length (_init_moves_dict n) = 2 * n + n * (n - 1).
Proof.
  rewrite init_moves_enumerate, enumerate_length. apply move_list_length.
Qed.

Lemma init_env (grid_size : Z) :
  grid_size <> 0%Z ->
  __init__ grid_size = Ok (env_of (Z.to_nat (grid_size ^ 2))).
Proof.
  intros H. unfold __init__, Discrete.
  assert (L : 1 <= Z.to_nat (grid_size ^ 2)) by nia.
  rewrite init_moves_length.
  destruct (Nat.ltb_spec 0 (2 * Z.to_nat (grid_size ^ 2)
                            + Z.to_nat (grid_size ^ 2)
                              * (Z.to_nat (grid_size ^ 2) - 1))) as [_|K];
    [|lia].
  simpl. rewrite init_outcomes_table. simpl. unfold env_of.
  rewrite init_moves_length. reflexivity.
Qed.

Lemma init_env_nat (d : nat) :
  1 <= d -> __init__ (Z.of_nat d) = Ok (env_of (d * d)).
Proof.
  intros H. rewrite init_env by lia. do 2 f_equal. lia.
Qed.

Lemma check_end_label (n x w : nat) :
  x < 2 ^ n -> _win_check n (board_of n x) = Ok w ->
  check_end (env_of n) x = w
  /\ (w = 0 -> In x (draws_0 (endings_lookuptable (env_of n))))
  /\ (w = 1 -> In x (wins_1 (endings_lookuptable (env_of n))))
  /\ (w = 2 -> In x (wins_2 (endings_lookuptable (env_of n)))).
Proof.
  intros Hx Hw.
  assert (R : In x (range (2 ^ n))) by (apply in_seq; lia).
  assert (L : forall v, label_is n v x = (w =? v))
    by (intros v; unfold label_is; rewrite Hw; reflexivity).
  destruct (win_check_board_of n x) as [w' [Hw' Hle]].
  assert (w' = w) by congruence. subst w'.
  split; [|repeat split; intros ->; simpl; apply filter_In; split;
           try exact R; rewrite L; reflexivity].
  unfold check_end. simpl.
  destruct (existsb (Nat.eqb x) (filter (label_is n 1) (range (2 ^ n)))) eqn:E1.
  { apply existsb_eqb_In, filter_In in E1. destruct E1 as [_ E1].
    rewrite L in E1. apply Nat.eqb_eq in E1. congruence. }
  destruct (existsb (Nat.eqb x) (filter (label_is n 2) (range (2 ^ n)))) eqn:E2.
  { apply existsb_eqb_In, filter_In in E2. destruct E2 as [_ E2].
    rewrite L in E2. apply Nat.eqb_eq in E2. congruence. }
  destruct w as [|[|[|w]]]; [reflexivity | | | lia]; exfalso.
  - assert (K : existsb (Nat.eqb x) (filter (label_is n 1) (range (2 ^ n)))
                = true)
      by (apply existsb_eqb_In, filter_In; split; [exact R | rewrite L; reflexivity]).
    congruence.
  - assert (K : existsb (Nat.eqb x) (filter (label_is n 2) (range (2 ^ n)))
                = true)
      by (apply existsb_eqb_In, filter_In; split; [exact R | rewrite L; reflexivity]).
    congruence.
Qed.

(** ** The classifier *)

(** C3. A classical outcome whose lines hold both a complete line of zeros
    and a complete line of ones is labelled a draw (0), by [_win_check] and
    by the lookup in the table of the constructed environment. *)
Theorem both_lines_draw (d x : nat) (lines : list str) :
  1 <= d -> x < 2 ^ (d * d) ->
  board_lines d (board_of (d * d) x) = Ok lines ->
  In (repeat "0"%char d) lines ->
  In (repeat "1"%char d) lines ->
  _win_check (d * d) (board_of (d * d) x) = Ok 0
  /\ exists env, __init__ (Z.of_nat d) = Ok env
                 /\ check_end env x = 0
                 /\ In x (draws_0 (endings_lookuptable env)).
Proof.
  intros Hd Hx Hl H0 H1.
  assert (Hlen : d * d <= List.length (board_of (d * d) x))
    by apply board_of_length_ge.
  rewrite (board_lines_ok _ _ Hlen) in Hl. inversion Hl; subst lines.
  assert (W : _win_check (d * d) (board_of (d * d) x) = Ok 0).
  { pose proof (win_check_verdict (d * d) (board_of (d * d) x)) as V.
    simpl in V. rewrite Nat.sqrt_square in V. rewrite (V Hd Hlen).
    apply has_line_In in H0, H1. rewrite H0, H1. reflexivity. }
  split; [exact W|]. exists (env_of (d * d)).
  split; [apply init_env_nat; exact Hd|].
  destruct (check_end_label (d * d) x 0 Hx W) as [E [D _]].
  split; [exact E | apply D; reflexivity].
Qed.

(** The dimension-2 board [0011]: row 0 is the zero line, row 1 the one line. *)
Lemma both_lines_draw_0011 :
  1 <= 2
  /\ 3 < 2 ^ (2 * 2)
  /\ board_of (2 * 2) 3 = list_ascii_of_string "0011"
  /\ board_lines 2 (board_of (2 * 2) 3)
     = Ok (map list_ascii_of_string ["00"; "11"; "01"; "01"; "01"; "01"]%string)
  /\ _win_check (2 * 2) (board_of (2 * 2) 3) = Ok 0
  /\ exists env, __init__ (Z.of_nat 2) = Ok env
                 /\ check_end env 3 = 0
                 /\ In 3 (draws_0 (endings_lookuptable env)).
Proof.
  split; [lia|]. split; [simpl; lia|]. split; [reflexivity|].
  split; [reflexivity|].
  apply (both_lines_draw 2 3
           (map list_ascii_of_string
                ["00"; "11"; "01"; "01"; "01"; "01"]%string)).
  - lia.
  - simpl; lia.
  - reflexivity.
  - simpl. auto.
  - simpl. auto.
Defined.

(** C9. On the dimension-2 board, the index with bit string [0001] (rows
    [00] and [01]) is a win for player 1, the player of the zero lines. *)
Theorem index_0001_player_1 :
  board_of 4 1 = list_ascii_of_string "0001"
  /\ _win_check 4 (board_of 4 1) = Ok 1
  /\ exists env, __init__ 2 = Ok env
                 /\ check_end env 1 = 1
                 /\ In 1 (wins_1 (endings_lookuptable env)).
Proof.
  split; [reflexivity|]. split; [reflexivity|].
  exists (env_of (2 * 2)). split; [apply (init_env_nat 2); lia|].
  assert (W : _win_check (2 * 2) (board_of (2 * 2) 1) = Ok 1) by reflexivity.
  destruct (check_end_label (2 * 2) 1 1) as [E [_ [D _]]];
    [simpl; lia | exact W |].
  split; [exact E | apply D; reflexivity].
Qed.

Lemma board_of_zero (n : nat) : 1 <= n -> board_of n 0 = repeat "0"%char n.
Proof.
  intros H. rewrite board_of_digits. simpl.
  replace n with (S (n - 1)) at 2 by lia. rewrite <- repeat_snoc. reflexivity.
Qed.

Lemma incl_repeat (a : ascii) (n : nat) (l : str) :
  incl l (repeat a n) -> l = repeat a (List.length l).
Proof.
  intros H. apply Forall_eq_repeat. apply Forall_forall. intros c Hc.
  symmetry. apply (repeat_spec n a c). apply H. exact Hc.
Qed.

(** C10. For every dimension [d >= 1] the index 0, the board of zeros only,
    is a win for player 1 and not a draw. *)
Theorem all_zero_board_player_1 (d : nat) :
  1 <= d ->
  _win_check (d * d) (board_of (d * d) 0) = Ok 1
  /\ exists env, __init__ (Z.of_nat d) = Ok env
                 /\ check_end env 0 = 1
                 /\ In 0 (wins_1 (endings_lookuptable env))
                 /\ ~ In 0 (draws_0 (endings_lookuptable env)).
Proof.
  intros Hd.
  assert (Hn : 1 <= d * d) by nia.
  assert (Hlen : d * d <= List.length (board_of (d * d) 0))
    by apply board_of_length_ge.
  assert (A : forall line, In line (lines_of d (board_of (d * d) 0)) ->
                           line = repeat "0"%char d).
  { intros line Hin. destruct (lines_of_cells _ _ _ Hlen Hin) as [L I].
    rewrite (board_of_zero _ Hn) in I. rewrite <- L. apply (incl_repeat _ _ _ I). }
  assert (W : _win_check (d * d) (board_of (d * d) 0) = Ok 1).
  { pose proof (win_check_verdict (d * d) (board_of (d * d) 0)) as V.
    simpl in V. rewrite Nat.sqrt_square in V. rewrite (V Hd Hlen).
    destruct (lines_of_nonempty d (board_of (d * d) 0) Hd) as [l [r E]].
    assert (H0 : has_line (repeat "0"%char d) (lines_of d (board_of (d * d) 0))
                 = true).
    { apply has_line_In. rewrite <- (A l); rewrite E; left; reflexivity. }
    assert (H1 : has_line (repeat "1"%char d) (lines_of d (board_of (d * d) 0))
                 = false).
    { destruct (has_line (repeat "1"%char d) _) eqn:K; [|reflexivity].
      apply has_line_In, A in K. symmetry in K.
      exfalso. exact (repeat_zero_one d Hd K). }
    rewrite H0, H1. reflexivity. }
  split; [exact W|]. exists (env_of (d * d)).
  split; [apply init_env_nat; exact Hd|].
  assert (Hx : 0 < 2 ^ (d * d)) by (apply Nat.neq_0_lt_0, Nat.pow_nonzero; lia).
  destruct (check_end_label (d * d) 0 1 Hx W) as [E [_ [D _]]].
  split; [exact E|]. split; [apply D; reflexivity|].
  simpl. intros K. apply filter_In in K. destruct K as [_ K].
  unfold label_is in K. rewrite W in K. discriminate.
Qed.

Lemma all_zero_board_player_1_dim3 :
  1 <= 3
  /\ _win_check (3 * 3) (board_of (3 * 3) 0) = Ok 1
  /\ exists env, __init__ (Z.of_nat 3) = Ok env
                 /\ check_end env 0 = 1
                 /\ In 0 (wins_1 (endings_lookuptable env))
                 /\ ~ In 0 (draws_0 (endings_lookuptable env)).
Proof. split; [lia | apply (all_zero_board_player_1 3); lia]. Defined.

(** C6. The table built for dimension [d] holds every index below
    [2 ^ (d * d)] in exactly one of its three lists, and nothing else. *)
Theorem outcome_table_partition (d : nat) :
  exists o,
    _init_outcomes_dict (d * d) = Ok o
    /\ NoDup (wins_1 o ++ wins_2 o ++ draws_0 o)
    /\ forall x, In x (wins_1 o ++ wins_2 o ++ draws_0 o) <-> x < 2 ^ (d * d).
Proof.
  set (n := d * d). eexists. split; [apply init_outcomes_table|]. simpl.
  assert (ND : forall w, NoDup (filter (label_is n w) (range (2 ^ n))))
    by (intros w; apply NoDup_filter, seq_NoDup).
  assert (DJ : forall v w x, v <> w ->
                 In x (filter (label_is n v) (range (2 ^ n))) ->
                 ~ In x (filter (label_is n w) (range (2 ^ n)))).
  { intros v w x Hvw Hv Hw. apply filter_In in Hv, Hw.
    apply Hvw. apply (label_is_functional n v w x); tauto. }
  split.
  - apply NoDup_app; [apply ND | apply NoDup_app; [apply ND | apply ND |] |].
    + intros x. apply DJ. lia.
    + intros x H1 H. apply in_app_or in H.
      destruct H as [H|H]; revert H; apply (DJ 1); [lia | exact H1 | lia | exact H1].
  - intros x. rewrite !in_app_iff, !filter_In. unfold range. rewrite !in_seq.
    split; [intros [H|[H|H]]; lia|]. intros Hx.
    destruct (win_check_board_of n x) as [w [Hw Hle]].
    assert (L : forall v, label_is n v x = (w =? v))
      by (intros v; unfold label_is; rewrite Hw; reflexivity).
    rewrite !L.
    destruct w as [|[|[|w]]]; simpl; [| | |lia];
      [right; right | left | right; left]; split; (lia || reflexivity).
Qed.

(** ** The move vocabulary *)

(** C7. For [n] qubits the move table has [2n + n(n-1)] entries, its
    identifiers are the integers from 0 in order, without repetition, and
    its entries are, each exactly once, a Hadamard and a Pauli-X move for
    every qubit and a controlled-X move for every ordered pair of distinct
    qubits. *)
Theorem move_table_size (n : nat) :
  List.length (_init_moves_dict n) = 2 * n + n * (n - 1)
  /\ keys (_init_moves_dict n) = map Z.of_nat (seq 0 (2 * n + n * (n - 1)))
  /\ NoDup (keys (_init_moves_dict n))
  /\ NoDup (values (_init_moves_dict n))
  /\ forall m,
       In m (values (_init_moves_dict n)) <->
       (exists q, q < n /\ (m = ([q], HGate) \/ m = ([q], XGate)))
       \/ (exists c t, c < n /\ t < n /\ c <> t /\ m = ([c; t], CXGate)).
Proof.
  assert (K : keys (_init_moves_dict n)
              = map Z.of_nat (seq 0 (2 * n + n * (n - 1)))).
  { rewrite init_moves_enumerate, enumerate_keys, move_list_length.
    apply map_ext. intros i. lia. }
  split; [apply init_moves_length|]. split; [exact K|]. split.
  - rewrite K. apply Finite.Injective_map_NoDup; [|apply seq_NoDup].
    intros a b E. lia.
  - rewrite init_moves_enumerate, enumerate_values.
    split; [apply move_list_NoDup | apply move_list_In].
Qed.

(** C5, at -1. Construction accepts a negative linear size. *)
Lemma init_negative_constructs :
  exists env, __init__ (-1) = Ok env
              /\ qnum env = 1
              /\ List.length (get_statevector (circuit env)) = 2.
Proof.
  exists (env_of 1). split; [apply (init_env (-1)); lia|].
  split; reflexivity.
Qed.

(** C5, as the code has it. The constructor does not check the sign of
    the linear size: a negative [grid_size] builds the environment of its
    absolute value, with [grid_size ** 2] qubits. *)
Theorem init_negative_size (grid_size : Z) :
  (grid_size < 0)%Z ->
  __init__ grid_size = __init__ (- grid_size)
  /\ exists env, __init__ grid_size = Ok env
                 /\ qnum env = Z.to_nat (grid_size * grid_size)
                 /\ List.length (get_statevector (circuit env))
                    = 2 ^ Z.to_nat (grid_size * grid_size).
Proof.
  intros H. rewrite !init_env by lia.
  replace ((- grid_size) ^ 2)%Z with (grid_size ^ 2)%Z by lia.
  split; [reflexivity|]. eexists. split; [reflexivity|].
  replace (grid_size * grid_size)%Z with (grid_size ^ 2)%Z by lia.
  split; [reflexivity|].
  unfold get_statevector, range. rewrite length_map, length_seq. reflexivity.
Qed.

Lemma init_negative_size_minus_2 :
  (-2 < 0)%Z
  /\ __init__ (-2) = __init__ (- -2)
  /\ exists env, __init__ (-2) = Ok env
                 /\ qnum env = Z.to_nat (-2 * -2)
                 /\ List.length (get_statevector (circuit env))
                    = 2 ^ Z.to_nat (-2 * -2).
Proof. split; [lia | apply (init_negative_size (-2)); lia]. Defined.

(** ** Basis indices and their bits *)

Lemma set_bit_spec (i q m : nat) (b : bool) :
  Nat.testbit (set_bit i q b) m = if q =? m then b else Nat.testbit i m.
Proof.
  unfold set_bit. destruct b.
  - rewrite Nat.setbit_eqb. destruct (q =? m); reflexivity.
  - rewrite Nat.clearbit_eqb. destruct (q =? m), (Nat.testbit i m); reflexivity.
Qed.

Lemma flip_spec (i q m : nat) :
  Nat.testbit (flip i q) m = xorb (Nat.testbit i m) (q =? m).
Proof. unfold flip. rewrite Nat.lxor_spec, Nat.pow2_bits_eqb. reflexivity. Qed.

Lemma set_bit_same (i q : nat) : set_bit i q (Nat.testbit i q) = i.
Proof.
  apply Nat.bits_inj. intros m. rewrite set_bit_spec.
  destruct (Nat.eqb_spec q m); [subst|]; reflexivity.
Qed.

Lemma set_bit_other (i q : nat) : set_bit i q (negb (Nat.testbit i q)) = flip i q.
Proof.
  apply Nat.bits_inj. intros m. rewrite set_bit_spec, flip_spec.
  destruct (Nat.eqb_spec q m); [subst|]; destruct (Nat.testbit i m); reflexivity.
Qed.

Lemma flip_flip (i q : nat) : flip (flip i q) q = i.
Proof.
  apply Nat.bits_inj. intros m. rewrite !flip_spec.
  destruct (Nat.testbit i m), (q =? m); reflexivity.
Qed.

Lemma flip_testbit (i q : nat) :
  Nat.testbit (flip i q) q = negb (Nat.testbit i q).
Proof.
  rewrite flip_spec, Nat.eqb_refl. destruct (Nat.testbit i q); reflexivity.
Qed.

Lemma flip_testbit_other (i q m : nat) :
  q <> m -> Nat.testbit (flip i q) m = Nat.testbit i m.
Proof.
  intros H. rewrite flip_spec. destruct (Nat.eqb_spec q m); [contradiction|].
  destruct (Nat.testbit i m); reflexivity.
Qed.

Lemma lt_pow2_bits (i n : nat) :
  i < 2 ^ n <-> forall m, n <= m -> Nat.testbit i m = false.
Proof.
  split.
  - intros H m Hm. rewrite <- (Nat.mod_small i (2 ^ n) H).
    apply Nat.mod_pow2_bits_high. exact Hm.
  - intros H. assert (E : i mod 2 ^ n = i).
    { apply Nat.bits_inj. intros m. destruct (Nat.lt_ge_cases m n) as [L|L].
      - apply Nat.mod_pow2_bits_low. exact L.
      - rewrite Nat.mod_pow2_bits_high by exact L. symmetry. apply H. exact L. }
    rewrite <- E. apply Nat.mod_upper_bound. apply Nat.pow_nonzero. lia.
Qed.

Lemma flip_lt (i q n : nat) : q < n -> i < 2 ^ n -> flip i q < 2 ^ n.
Proof.
  intros Hq Hi. apply lt_pow2_bits. intros m Hm.
  rewrite flip_testbit_other by lia.
  revert m Hm. apply lt_pow2_bits. exact Hi.
Qed.

(** ** Complex arithmetic *)

Lemma C_eq (a b : C) : fst a = fst b -> snd a = snd b -> a = b.
Proof. destruct a, b. simpl. intros -> ->. reflexivity. Qed.

Lemma Cmult_0_l (z : C) : Cmult C0 z = C0.
Proof. apply C_eq; simpl; ring. Qed.

Lemma Cmult_1_l (z : C) : Cmult C1 z = z.
Proof. apply C_eq; simpl; ring. Qed.

Lemma Cplus_0_l (z : C) : Cplus C0 z = z.
Proof. apply C_eq; simpl; ring. Qed.

Lemma Cplus_0_r (z : C) : Cplus z C0 = z.
Proof. apply C_eq; simpl; ring. Qed.

(** ** Each gate on the amplitudes *)

Lemma apply_X (q : nat) (psi : amplitudes) (i : nat) :
  apply_gate XGate [q] psi i = psi (flip i q).
Proof.
  unfold apply_gate. cbn [List.length Nat.pow Nat.mul Nat.add Csum gather scatter].
  rewrite <- set_bit_other.
  destruct (Nat.testbit i q); simpl;
    rewrite ?Cmult_0_l, ?Cmult_1_l, ?Cplus_0_l, ?Cplus_0_r; reflexivity.
Qed.

(** The Hadamard gate: the sum or the difference of the two amplitudes that
    differ in bit [q], scaled by [1 / sqrt 2]. *)
Lemma apply_H (q : nat) (psi : amplitudes) (i : nat) :
  apply_gate HGate [q] psi i =
  if Nat.testbit i q
  then Cplus (Cmult (RtoC (/ sqrt 2)) (psi (flip i q)))
             (Cmult (RtoC (- / sqrt 2)) (psi i))
  else Cplus (Cmult (RtoC (/ sqrt 2)) (psi i))
             (Cmult (RtoC (/ sqrt 2)) (psi (flip i q))).
Proof.
  unfold apply_gate. cbn [List.length Nat.pow Nat.mul Nat.add Csum gather scatter].
  rewrite <- set_bit_other. pose proof (set_bit_same i q) as Same.
  destruct (Nat.testbit i q); simpl in *; rewrite Same, Cplus_0_l; reflexivity.
Qed.

Lemma apply_CX (c t : nat) (psi : amplitudes) (i : nat) :
  c <> t ->
  apply_gate CXGate [c; t] psi i =
  if Nat.testbit i c then psi (flip i t) else psi i.
Proof.
  intros Hct. unfold apply_gate.
  cbn [List.length Nat.pow Nat.mul Nat.add Csum gather scatter].
  assert (E : forall bc bt,
             scatter [c; t] (Nat.b2n bc + 2 * Nat.b2n bt) i
             = set_bit (set_bit i c bc) t bt).
  { intros [|] [|]; reflexivity. }
  assert (Sc : forall bt, set_bit (set_bit i c (Nat.testbit i c)) t bt
                         = set_bit i t bt)
    by (intros bt; rewrite set_bit_same; reflexivity).
  pose proof (E false false) as E00. pose proof (E true false) as E10.
  pose proof (E false true) as E01. pose proof (E true true) as E11.
  cbn [scatter Nat.b2n Nat.mul Nat.add Nat.div2 Nat.odd Nat.even negb]
    in E00, E10, E01, E11.
  cbn [Nat.div2 Nat.odd Nat.even negb].
  pose proof (set_bit_same i t) as St. pose proof (set_bit_other i t) as Ft.
  destruct (Nat.testbit i c) eqn:Bc, (Nat.testbit i t) eqn:Bt;
    cbn [Nat.b2n Nat.add Nat.mul to_matrix negb] in *;
    rewrite ?Cmult_0_l, ?Cmult_1_l, ?Cplus_0_l, ?Cplus_0_r;
    rewrite ?Sc; try rewrite <- Ft; try rewrite St; try reflexivity.
Qed.

(** ** Sums over the basis indices *)

Lemma sum_sq_map (psi : amplitudes) (l : list nat) :
  sum_sq (map psi l) = Rsum (map (fun i => Cnorm2 (psi i)) l).
Proof. induction l as [|i l IH]; simpl; [reflexivity | rewrite IH; reflexivity]. Qed.

Lemma Rsum_perm (l l' : list R) : Permutation l l' -> Rsum l = Rsum l'.
Proof.
  induction 1 as [|x l l' _ IH|x y l|l l' l'' _ IH1 _ IH2]; simpl.
  - reflexivity.
  - rewrite IH. reflexivity.
  - ring.
  - congruence.
Qed.

Lemma Rsum_ext (f g : nat -> R) (l : list nat) :
  (forall i, In i l -> f i = g i) -> Rsum (map f l) = Rsum (map g l).
Proof. intros H. f_equal. apply map_ext_in. exact H. Qed.

Lemma Rsum_plus (f g : nat -> R) (l : list nat) :
  Rsum (map (fun i => (f i + g i)%R) l)
  = (Rsum (map f l) + Rsum (map g l))%R.
Proof. induction l as [|i l IH]; simpl; [ring | rewrite IH; ring]. Qed.

Lemma Rsum_scal (k : R) (f : nat -> R) (l : list nat) :
  Rsum (map (fun i => (k * f i)%R) l) = (k * Rsum (map f l))%R.
Proof. induction l as [|i l IH]; simpl; [ring | rewrite IH; ring]. Qed.

(** A sum over [0 .. m-1] is unchanged by an involution of the indices. *)
Lemma Rsum_reindex (sigma : nat -> nat) (m : nat) (f : nat -> R) :
  (forall i, i < m -> sigma i < m) ->
  (forall i, i < m -> sigma (sigma i) = i) ->
  Rsum (map (fun i => f (sigma i)) (seq 0 m)) = Rsum (map f (seq 0 m)).
Proof.
  intros Hlt Hinv. rewrite <- (map_map sigma f). apply Rsum_perm.
  apply Permutation_map. apply NoDup_Permutation.
  - apply Finite.Injective_map_NoDup_in; [|apply seq_NoDup].
    intros x y Hx Hy E. apply in_seq in Hx, Hy.
    rewrite <- (Hinv x), <- (Hinv y) by lia. rewrite E. reflexivity.
  - apply seq_NoDup.
  - intros x. rewrite in_map_iff. split.
    + intros [y [<- Hy]]. apply in_seq in Hy. apply in_seq.
      specialize (Hlt y). lia.
    + intros Hx. apply in_seq in Hx. exists (sigma x).
      split; [apply Hinv; lia|]. apply in_seq. specialize (Hlt x). lia.
Qed.

Lemma sqrt2_inv_sq : (/ sqrt 2 * / sqrt 2 = 1 / 2)%R.
Proof.
  assert (P : (0 < sqrt 2)%R) by (apply sqrt_lt_R0; lra).
  assert (Q : (sqrt 2 * sqrt 2 = 2)%R) by (apply sqrt_sqrt; lra).
  rewrite <- Rinv_mult, Q. lra.
Qed.

Lemma norm2_X (n q : nat) (psi : amplitudes) :
  q < n -> norm2 n (apply_gate XGate [q] psi) = norm2 n psi.
Proof.
  intros Hq. unfold norm2.
  rewrite (Rsum_ext _ (fun i => Cnorm2 (psi (flip i q))))
    by (intros i _; rewrite apply_X; reflexivity).
  apply (Rsum_reindex (fun i => flip i q) (2 ^ n) (fun i => Cnorm2 (psi i))).
  - intros i. apply flip_lt. exact Hq.
  - intros i _. apply flip_flip.
Qed.

Lemma cx_index_lt (c t n i : nat) : t < n -> i < 2 ^ n -> cx_index c t i < 2 ^ n.
Proof.
  intros Ht Hi. unfold cx_index. destruct (Nat.testbit i c); [|exact Hi].
  apply flip_lt; assumption.
Qed.

Lemma cx_index_invol (c t i : nat) :
  c <> t -> cx_index c t (cx_index c t i) = i.
Proof.
  intros H. unfold cx_index. destruct (Nat.testbit i c) eqn:B.
  - rewrite flip_testbit_other by congruence. rewrite B. apply flip_flip.
  - rewrite B. reflexivity.
Qed.

Lemma norm2_CX (n c t : nat) (psi : amplitudes) :
  c <> t -> t < n -> norm2 n (apply_gate CXGate [c; t] psi) = norm2 n psi.
Proof.
  intros Hct Ht. unfold norm2.
  rewrite (Rsum_ext _ (fun i => Cnorm2 (psi (cx_index c t i)))).
  2:{ intros i _. rewrite (apply_CX c t psi i Hct). unfold cx_index.
      destruct (Nat.testbit i c); reflexivity. }
  apply (Rsum_reindex (cx_index c t) (2 ^ n) (fun i => Cnorm2 (psi i))).
  - intros i. apply cx_index_lt. exact Ht.
  - intros i _. apply cx_index_invol. exact Hct.
Qed.

Lemma cross_flip (q : nat) (psi : amplitudes) (i : nat) :
  cross q psi (flip i q) = (- cross q psi i)%R.
Proof.
  unfold cross. rewrite flip_flip, flip_testbit.
  destruct (Nat.testbit i q); simpl; ring.
Qed.

Lemma Cnorm2_H (q : nat) (psi : amplitudes) (i : nat) :
  Cnorm2 (apply_gate HGate [q] psi i)
  = (1 / 2 * Cnorm2 (psi i) + 1 / 2 * Cnorm2 (psi (flip i q))
     + cross q psi i)%R.
Proof.
  rewrite apply_H. unfold cross, Cnorm2.
  pose proof sqrt2_inv_sq as Q. set (s := (/ sqrt 2)%R) in *.
  destruct (Nat.testbit i q); simpl;
    destruct (psi i) as [a b], (psi (flip i q)) as [a' b']; simpl;
    ring_simplify; replace (s ^ 2)%R with (1 / 2)%R by (rewrite <- Q; ring);
    field.
Qed.

Lemma norm2_H (n q : nat) (psi : amplitudes) :
  q < n -> norm2 n (apply_gate HGate [q] psi) = norm2 n psi.
Proof.
  intros Hq. unfold norm2.
  rewrite (Rsum_ext _ _ _ (fun i _ => Cnorm2_H q psi i)).
  rewrite !Rsum_plus, !Rsum_scal.
  assert (F : Rsum (map (fun i => Cnorm2 (psi (flip i q))) (seq 0 (2 ^ n)))
              = Rsum (map (fun i => Cnorm2 (psi i)) (seq 0 (2 ^ n)))).
  { apply (Rsum_reindex (fun i => flip i q) (2 ^ n) (fun i => Cnorm2 (psi i))).
    - intros i. apply flip_lt. exact Hq.
    - intros i _. apply flip_flip. }
  assert (Z : Rsum (map (cross q psi) (seq 0 (2 ^ n))) = 0%R).
  { assert (E : Rsum (map (fun i => cross q psi (flip i q)) (seq 0 (2 ^ n)))
                = Rsum (map (cross q psi) (seq 0 (2 ^ n)))).
    { apply (Rsum_reindex (fun i => flip i q) (2 ^ n) (cross q psi)).
      - intros i. apply flip_lt. exact Hq.
      - intros i _. apply flip_flip. }
    rewrite (Rsum_ext _ (fun i => (-1 * cross q psi i)%R)) in E
      by (intros i _; rewrite cross_flip; ring).
    rewrite Rsum_scal in E. lra. }
  rewrite F, Z. lra.
Qed.

(** ** Circuits *)

Lemma Rsum_zero (f : nat -> R) (l : list nat) :
  (forall i, In i l -> f i = 0%R) -> Rsum (map f l) = 0%R.
Proof.
  induction l as [|i l IH]; intros H; simpl; [reflexivity|].
  rewrite (H i) by (left; reflexivity).
  rewrite IH by (intros j Hj; apply H; right; exact Hj). ring.
Qed.

Lemma norm2_ket0 (n : nat) : norm2 n ket0 = 1%R.
Proof.
  unfold norm2.
  assert (P : 2 ^ n = S (2 ^ n - 1))
    by (pose proof (Nat.pow_nonzero 2 n); lia).
  rewrite P. cbn [seq map Rsum fold_right]. fold (Rsum (map (fun i => Cnorm2 (ket0 i)) (seq 1 (2 ^ n - 1)))).
  rewrite Rsum_zero.
  - unfold ket0, Cnorm2. simpl. ring.
  - intros i Hi. apply in_seq in Hi. unfold ket0.
    destruct (Nat.eqb_spec i 0); [lia|]. unfold Cnorm2. simpl. ring.
Qed.

Lemma norm2_apply_gate (n : nat) (gq : Gate * list nat) (psi : amplitudes) :
  valid_instr n gq = true ->
  norm2 n (apply_gate (fst gq) (snd gq) psi) = norm2 n psi.
Proof.
  destruct gq as [g qs]. unfold valid_instr. simpl.
  rewrite !andb_true_iff. intros [[Hlt Hnd] Har].
  apply Nat.eqb_eq in Har.
  destruct g; simpl in Har.
  - destruct qs as [|q [|]]; try discriminate. simpl in Hlt.
    rewrite andb_true_r in Hlt. apply Nat.ltb_lt in Hlt.
    apply norm2_H. exact Hlt.
  - destruct qs as [|q [|]]; try discriminate. simpl in Hlt.
    rewrite andb_true_r in Hlt. apply Nat.ltb_lt in Hlt.
    apply norm2_X. exact Hlt.
  - destruct qs as [|c [|t [|]]]; try discriminate. simpl in Hlt, Hnd.
    rewrite !andb_true_r in Hlt, Hnd. rewrite orb_false_r in Hnd.
    apply andb_true_iff in Hlt. destruct Hlt as [_ Ht].
    apply Nat.ltb_lt in Ht.
    apply norm2_CX; [|exact Ht].
    destruct (Nat.eqb_spec c t); [discriminate | assumption].
Qed.

Lemma run_gates_snoc (l : list (Gate * list nat)) (gq : Gate * list nat)
      (psi : amplitudes) :
  run_gates (l ++ [gq]) psi = apply_gate (fst gq) (snd gq) (run_gates l psi).
Proof. unfold run_gates. rewrite fold_left_app. reflexivity. Qed.

Lemma norm2_run_gates (n : nat) (l : list (Gate * list nat)) (psi : amplitudes) :
  forallb (valid_instr n) l = true -> norm2 n (run_gates l psi) = norm2 n psi.
Proof.
  revert psi. induction l as [|gq l IH]; intros psi H; [reflexivity|].
  simpl in H. apply andb_true_iff in H. destruct H as [Hv Hl].
  simpl. rewrite (IH _ Hl). apply norm2_apply_gate. exact Hv.
Qed.

Lemma sum_sq_statevector (c : QuantumCircuit) :
  forallb (valid_instr (num_qubits c)) (data c) = true ->
  sum_sq (get_statevector c) = 1%R.
Proof.
  intros H. unfold get_statevector, range. rewrite sum_sq_map.
  change (norm2 (num_qubits c) (statevector c) = 1%R).
  unfold statevector. rewrite (norm2_run_gates _ _ _ H). apply norm2_ket0.
Qed.

Lemma circuit_append_valid (c c' : QuantumCircuit) (g : Gate) (qs : list nat) :
  circuit_append c g qs = Ok c' ->
  forallb (valid_instr (num_qubits c)) (data c) = true ->
  num_qubits c' = num_qubits c
  /\ data c' = data c ++ [(g, qs)]
  /\ forallb (valid_instr (num_qubits c')) (data c') = true.
Proof.
  unfold circuit_append. intros H Hv.
  destruct (forallb (fun q => q <? num_qubits c) qs && nodupb qs
            && (List.length qs =? gate_arity g)) eqn:E; [|discriminate].
  inversion H; subst c'. simpl. split; [reflexivity|]. split; [reflexivity|].
  rewrite forallb_app, Hv. simpl. unfold valid_instr. simpl. rewrite E.
  reflexivity.
Qed.

(** The moves of the table pass the checks of [circuit.append]. *)
Lemma move_list_valid (n : nat) (m : Move) :
  In m (move_list n) -> valid_instr n (snd m, fst m) = true.
Proof.
  intros H. apply move_list_In in H. unfold valid_instr.
  destruct H as [[q [Hq [->| ->]]]|[c [t [Hc [Ht [Hn ->]]]]]]; simpl.
  - apply Nat.ltb_lt in Hq. rewrite Hq. reflexivity.
  - apply Nat.ltb_lt in Hq. rewrite Hq. reflexivity.
  - apply Nat.ltb_lt in Hc, Ht. rewrite Hc, Ht.
    destruct (Nat.eqb_spec c t); [contradiction | reflexivity].
Qed.

(** ** Environments in use *)

Lemma wf_env_of (n : nat) : wf_env (env_of n).
Proof. repeat split. Qed.

Lemma move_known (self : QTicTacToeEnv) (action : Z) :
  wf_env self -> In action (keys (moves self)) ->
  exists m,
    In m (move_list (qnum self))
    /\ move action self
       = (mk_env (qnum self)
                 (mk_circuit (num_qubits (circuit self))
                             (num_clbits (circuit self))
                             (data (circuit self) ++ [(snd m, fst m)]))
                 (moves self) (action_space self) (endings_lookuptable self)
                 (status_id self ++ format_action action),
          Ok tt).
Proof.
  intros [Hm [Hn Hv]] Hin. rewrite Hm, init_moves_enumerate in Hin.
  destruct (enumerate_get_In _ _ _ Hin) as [m [Hget Hml]].
  exists m. split; [exact Hml|].
  rewrite <- init_moves_enumerate, <- Hm in Hget.
  pose proof (move_list_valid _ _ Hml) as V.
  unfold valid_instr in V. simpl in V. rewrite <- Hn in V.
  unfold move. simpl. rewrite Hget. simpl.
  unfold circuit_append. rewrite V. reflexivity.
Qed.

Lemma move_wf (self self' : QTicTacToeEnv) (action : Z) :
  wf_env self -> In action (keys (moves self)) ->
  move action self = (self', Ok tt) ->
  wf_env self' /\ qnum self' = qnum self /\ moves self' = moves self.
Proof.
  intros Hwf Hin E. destruct (move_known self action Hwf Hin) as [m [Hml E']].
  rewrite E' in E. inversion E; subst self'. clear E.
  destruct Hwf as [Hm [Hn Hv]].
  split; [|split; reflexivity]. repeat split; simpl; try assumption.
  rewrite forallb_app, Hv. simpl. rewrite (move_list_valid _ _ Hml). reflexivity.
Qed.

Lemma steps_known (actions : list Z) (self : QTicTacToeEnv) :
  wf_env self -> Forall (fun a => In a (keys (moves self))) actions ->
  exists self', steps actions self = (self', Ok tt)
                /\ wf_env self' /\ qnum self' = qnum self.
Proof.
  revert self. induction actions as [|a rest IH]; intros self Hwf Hall.
  - exists self. repeat split; try apply Hwf.
  - inversion Hall as [|? ? Ha Hrest]; subst.
    destruct (move_known self a Hwf Ha) as [m [Hml E]].
    destruct (move_wf self _ a Hwf Ha E) as [Hwf' [Hq Hmv]].
    cbn [steps]. unfold step. rewrite E.
    match goal with
    | |- context [steps rest ?s] => destruct (IH s) as [self' [Es [W Q]]]
    end; [exact Hwf' | rewrite Hmv; exact Hrest |].
    exists self'. split; [exact Es|]. split; [exact W|]. rewrite Q. exact Hq.
Qed.

(** ** Reset *)

Lemma circuit_h_ok (qs : list nat) (c : QuantumCircuit) :
  (forall q, In q qs -> q < num_qubits c) ->
  circuit_h c qs
  = Ok (mk_circuit (num_qubits c) (num_clbits c) (data c ++ h_layer qs)).
Proof.
  unfold circuit_h. revert c. induction qs as [|q qs IH]; intros c H.
  - simpl. rewrite app_nil_r. destruct c; reflexivity.
  - cbn [for_each]. unfold circuit_append at 1. cbn [forallb nodupb existsb
      List.length gate_arity negb andb Nat.eqb].
    assert (L : (q <? num_qubits c) = true)
      by (apply Nat.ltb_lt, H; left; reflexivity).
    rewrite L. cbn [andb bind]. rewrite IH.
    + cbn [num_qubits num_clbits data h_layer map].
      rewrite <- app_assoc. reflexivity.
    + cbn [num_qubits]. intros q' Hq'. apply H. right. exact Hq'.
Qed.

Lemma reset_ok (self : QTicTacToeEnv) :
  reset self = (reset_env self, Ok (_get_statevec (reset_env self))).
Proof.
  unfold reset. cbn [circuit set_circuit qnum].
  rewrite circuit_h_ok by (cbn [num_qubits]; intros q Hq; apply in_seq in Hq; lia).
  reflexivity.
Qed.

Lemma h_layer_valid (n : nat) :
  forallb (valid_instr n) (h_layer (range n)) = true.
Proof.
  apply forallb_forall. intros gq H. apply in_map_iff in H.
  destruct H as [q [<- Hq]]. apply in_seq in Hq. unfold valid_instr. simpl.
  destruct (Nat.ltb_spec q n); [reflexivity | lia].
Qed.

Lemma reset_wf (self : QTicTacToeEnv) :
  wf_env self -> wf_env (reset_env self).
Proof.
  intros [Hm _]. repeat split; simpl; [exact Hm | apply h_layer_valid].
Qed.

Lemma apply_gate_ext (g : Gate) (qs : list nat) (psi psi' : amplitudes) :
  (forall i, psi i = psi' i) ->
  forall i, apply_gate g qs psi i = apply_gate g qs psi' i.
Proof.
  intros H i. unfold apply_gate.
  induction (2 ^ List.length qs) as [|k IH]; simpl; [reflexivity|].
  rewrite IH, H. reflexivity.
Qed.

Lemma run_gates_ext (l : list (Gate * list nat)) (psi psi' : amplitudes) :
  (forall i, psi i = psi' i) ->
  forall i, run_gates l psi i = run_gates l psi' i.
Proof.
  revert psi psi'. induction l as [|gq l IH]; intros psi psi' H; [exact H|].
  simpl. apply IH. apply apply_gate_ext. exact H.
Qed.

Lemma testbit_ge (i k : nat) : Nat.testbit i k = true -> 2 ^ k <= i.
Proof.
  intros H. destruct (Nat.lt_ge_cases i (2 ^ k)) as [L|L]; [|exact L].
  pose proof (proj1 (lt_pow2_bits i k) L k (Nat.le_refl k)). congruence.
Qed.

Lemma lt_pow2_succ (i k : nat) :
  i < 2 ^ S k <-> set_bit i k false < 2 ^ k.
Proof.
  rewrite !lt_pow2_bits. split; intros H m Hm.
  - rewrite set_bit_spec. destruct (Nat.eqb_spec k m); [reflexivity|].
    apply H. lia.
  - specialize (H m). rewrite set_bit_spec in H.
    destruct (Nat.eqb_spec k m); [lia|]. apply H. lia.
Qed.

Lemma uniform_step (k : nat) (i : nat) :
  apply_gate HGate [k] (uniform k) i = uniform (S k) i.
Proof.
  rewrite apply_H. unfold uniform.
  pose proof (lt_pow2_succ i k) as P.
  pose proof (set_bit_same i k) as Same.
  pose proof (set_bit_other i k) as Other.
  destruct (Nat.testbit i k) eqn:B; simpl negb in Other.
  - rewrite <- Other. apply testbit_ge in B.
    destruct (Nat.ltb_spec i (2 ^ k)); [lia|].
    destruct (Nat.ltb_spec (set_bit i k false) (2 ^ k)),
             (Nat.ltb_spec i (2 ^ S k)); try (exfalso; lia);
      apply C_eq; simpl; ring.
  - rewrite Same in P.
    assert (F : 2 ^ k <= flip i k).
    { apply testbit_ge. rewrite flip_testbit, B. reflexivity. }
    destruct (Nat.ltb_spec (flip i k) (2 ^ k)); [lia|].
    destruct (Nat.ltb_spec i (2 ^ k)), (Nat.ltb_spec i (2 ^ S k));
      try (exfalso; lia); apply C_eq; simpl; ring.
Qed.

Lemma h_layer_uniform (k : nat) (i : nat) :
  run_gates (h_layer (seq 0 k)) ket0 i = uniform k i.
Proof.
  revert i. induction k as [|k IH]; intros i.
  - unfold uniform, ket0. simpl.
    destruct i as [|i]; simpl; reflexivity.
  - rewrite seq_S. unfold h_layer. rewrite map_app. simpl map.
    rewrite run_gates_snoc. simpl fst. simpl snd.
    rewrite (apply_gate_ext HGate [k] _ (uniform k) IH).
    apply uniform_step.
Qed.

Lemma inv_sqrt2_pow (n : nat) : ((/ sqrt 2) ^ n = / sqrt (2 ^ n))%R.
Proof.
  induction n as [|n IH]; simpl.
  - rewrite sqrt_1. lra.
  - rewrite IH, sqrt_mult; [|lra|apply pow_le; lra].
    rewrite Rinv_mult. reflexivity.
Qed.

Lemma map_const {A B} (f : A -> B) (b : B) (l : list A) :
  (forall x, In x l -> f x = b) -> map f l = repeat b (List.length l).
Proof.
  induction l as [|x l IH]; intros H; simpl; [reflexivity|].
  rewrite (H x) by (left; reflexivity).
  rewrite IH by (intros y Hy; apply H; right; exact Hy). reflexivity.
Qed.

Lemma reset_statevector (self : QTicTacToeEnv) :
  get_statevector (circuit (reset_env self))
  = repeat (RtoC (/ sqrt (2 ^ qnum self))) (2 ^ qnum self).
Proof.
  unfold get_statevector, statevector, range. simpl.
  rewrite (map_const _ (RtoC (/ sqrt (2 ^ qnum self)))).
  - rewrite length_seq. reflexivity.
  - intros i Hi. apply in_seq in Hi. unfold range. rewrite h_layer_uniform.
    unfold uniform. destruct (Nat.ltb_spec i (2 ^ qnum self)); [|lia].
    rewrite inv_sqrt2_pow. reflexivity.
Qed.

(** ** The register at creation and after a reset *)

(** C1, at creation. Right after construction the board circuit is empty:
    the register is the basis state of index 0, not a superposition. *)
Lemma init_basis_state :
  exists env, __init__ 1 = Ok env
              /\ get_statevector (circuit env) = [C1; C0]
              /\ Cnorm2 C1 <> Cnorm2 C0.
Proof.
  exists (env_of 1). split; [apply init_env; lia|].
  split; [reflexivity|]. unfold Cnorm2, C1, C0, RtoC. simpl. lra.
Qed.

(** C1, as the code has it. [reset] leaves the register in the equal
    superposition: each of the [2 ^ n] amplitudes is the real number
    [1 / sqrt (2 ^ n)], and the vector returned is this one with each part
    rounded to two decimals. A new environment holds the empty circuit, the
    basis state of index 0, until the first [reset]. *)
Theorem reset_equal_superposition (self : QTicTacToeEnv) :
  exists self' v,
    reset self = (self', Ok v)
    /\ qnum self' = qnum self
    /\ get_statevector (circuit self')
       = repeat (RtoC (/ sqrt (2 ^ qnum self))) (2 ^ qnum self)
    /\ v = map Caround2 (get_statevector (circuit self')).
Proof.
  exists (reset_env self), (_get_statevec (reset_env self)).
  split; [apply reset_ok|]. split; [reflexivity|].
  split; [apply reset_statevector | reflexivity].
Qed.

(** ** Unitarity *)

Lemma init_wf (grid_size : Z) (env : QTicTacToeEnv) :
  __init__ grid_size = Ok env -> wf_env env.
Proof.
  intros H. destruct (Z.eq_dec grid_size 0) as [->|N].
  - discriminate H.
  - rewrite (init_env _ N) in H. inversion H. apply wf_env_of.
Qed.

(** C2, as the code has it. From a new or a reset environment, every
    sequence of moves of the table is carried out without an exception, and
    the squared magnitudes of the state vector of the board circuit, before
    [_get_statevec] rounds it, sum to 1 within [1e-6]. *)
Theorem unitarity_before_rounding
        (grid_size : Z) (env0 : QTicTacToeEnv) (from_reset : bool)
        (actions : list Z) :
  __init__ grid_size = Ok env0 ->
  Forall (fun a => In a (keys (moves env0))) actions ->
  exists env,
    steps actions (if from_reset then fst (reset env0) else env0)
    = (env, Ok tt)
    /\ (Rabs (sum_sq (get_statevector (circuit env)) - 1) <= 1 / 1000000)%R.
Proof.
  intros Hinit Hall. pose proof (init_wf _ _ Hinit) as Hwf.
  set (start := if from_reset then fst (reset env0) else env0).
  assert (Hs : wf_env start /\ moves start = moves env0).
  { subst start. destruct from_reset; [|split; [exact Hwf | reflexivity]].
    rewrite reset_ok. simpl. split; [apply reset_wf; exact Hwf | reflexivity]. }
  destruct Hs as [Hws Hms]. rewrite <- Hms in Hall.
  destruct (steps_known actions start Hws Hall) as [env [E [[_ [Hn Hv]] _]]].
  exists env. split; [exact E|].
  rewrite sum_sq_statevector by (rewrite Hn; exact Hv).
  apply Rabs_le. lra.
Qed.

Lemma unitarity_before_rounding_dim2 :
  __init__ 2 = Ok (env_of 4)
  /\ Forall (fun a => In a (keys (moves (env_of 4)))) [0; 9; 3; 19]%Z
  /\ exists env,
       steps [0; 9; 3; 19]%Z (fst (reset (env_of 4))) = (env, Ok tt)
       /\ (Rabs (sum_sq (get_statevector (circuit env)) - 1)
           <= 1 / 1000000)%R.
Proof.
  assert (I : __init__ 2 = Ok (env_of 4)) by (vm_compute; reflexivity).
  assert (F : Forall (fun a => In a (keys (moves (env_of 4)))) [0; 9; 3; 19]%Z)
    by (repeat constructor; simpl; tauto).
  split; [exact I|]. split; [exact F|].
  exact (unitarity_before_rounding 2 (env_of 4) true [0; 9; 3; 19]%Z I F).
Defined.

(** ** Rounding to two decimals *)

Lemma rint_near (x : R) (z : Z) :
  (IZR z - 1 / 2 < x < IZR z + 1 / 2)%R -> rint x = z.
Proof.
  intros [Lo Hi]. unfold rint. destruct (Rle_lt_dec (IZR z) x) as [G|L].
  - assert (E : z = Int_part x) by (apply Int_part_spec; lra).
    rewrite <- E. destruct (Rlt_dec (x - IZR z) (1 / 2)); [reflexivity | lra].
  - assert (E : (z - 1)%Z = Int_part x).
    { apply Int_part_spec. rewrite minus_IZR. lra. }
    rewrite <- E. rewrite minus_IZR.
    destruct (Rlt_dec (x - (IZR z - 1)) (1 / 2)); [lra|].
    destruct (Rlt_dec (1 / 2) (x - (IZR z - 1))); [lia | lra].
Qed.

Lemma around2_zero : around2 0 = 0%R.
Proof.
  unfold around2. rewrite (rint_near (0 * 100) 0); [lra|]. simpl. lra.
Qed.

Lemma inv_sqrt2_bounds : (705 / 1000 < / sqrt 2 < 715 / 1000)%R.
Proof.
  pose proof sqrt2_inv_sq as Q.
  assert (P : (0 < / sqrt 2)%R)
    by (apply Rinv_0_lt_compat, sqrt_lt_R0; lra).
  set (s := (/ sqrt 2)%R) in *. split; nra.
Qed.

Lemma around2_inv_sqrt2 : around2 (/ sqrt 2) = (71 / 100)%R.
Proof.
  unfold around2. pose proof inv_sqrt2_bounds as B.
  rewrite (rint_near (/ sqrt 2 * 100) 71); [reflexivity|]. lra.
Qed.

(** After a reset of the one-qubit board the vector [_get_statevec] returns
    is [0.71, 0.71]: its squared magnitudes sum to 1.0082. *)
Lemma rounded_statevec_board1 :
  exists env0 env v,
    __init__ 1 = Ok env0
    /\ reset env0 = (env, Ok v)
    /\ v = _get_statevec env
    /\ v = [(71 / 100, 0)%R; (71 / 100, 0)%R]
    /\ ~ (Rabs (sum_sq v - 1) <= 1 / 1000000)%R.
Proof.
  exists (env_of 1), (reset_env (env_of 1)), (_get_statevec (reset_env (env_of 1))).
  split; [apply init_env; lia|]. split; [apply reset_ok|].
  split; [reflexivity|].
  assert (E : _get_statevec (reset_env (env_of 1))
              = [(71 / 100, 0)%R; (71 / 100, 0)%R]).
  { unfold _get_statevec. rewrite reset_statevector.
    change (qnum (env_of 1)) with 1. cbn [Nat.pow Nat.mul Nat.add repeat map].
    unfold Caround2, RtoC. cbn [fst snd].
    replace (sqrt (2 ^ 1)) with (sqrt 2) by (f_equal; lra).
    rewrite around2_inv_sqrt2, around2_zero. reflexivity. }
  split; [exact E|]. rewrite E. unfold sum_sq, Cnorm2. simpl.
  intros H. unfold Rabs in H. destruct (Rcase_abs _) in H; lra.
Qed.

Lemma sum_sq_repeat (z : C) (n : nat) :
  sum_sq (repeat z n) = (IZR (Z.of_nat n) * Cnorm2 z)%R.
Proof.
  induction n as [|n IH].
  - simpl. ring.
  - cbn [repeat sum_sq fold_right]. fold (sum_sq (repeat z n)).
    rewrite IH, Nat2Z.inj_succ, succ_IZR. ring.
Qed.

Lemma around2_inv_sqrt512 : around2 (/ sqrt (2 ^ 9)) = (4 / 100)%R.
Proof.
  unfold around2. rewrite <- inv_sqrt2_pow.
  pose proof inv_sqrt2_bounds as B. pose proof sqrt2_inv_sq as Q.
  set (s := (/ sqrt 2)%R) in *.
  assert (E : (s ^ 9 = s / 16)%R).
  { replace (s ^ 9)%R with (s * ((s * s) * (s * s) * ((s * s) * (s * s))))%R
      by ring.
    rewrite Q. field. }
  rewrite E, (rint_near (s / 16 * 100) 4); [reflexivity|]. lra.
Qed.

(** C2, the vector returned. After a reset of the 3 x 3 board each of the
    512 amplitudes, [1 / sqrt 512], is returned as [0.04]: the squared
    magnitudes of the vector [_get_statevec] returns sum to 0.8192. *)
Lemma rounded_statevec_board3 :
  exists env0 env v,
    __init__ 3 = Ok env0
    /\ reset env0 = (env, Ok v)
    /\ v = _get_statevec env
    /\ v = repeat (4 / 100, 0)%R 512
    /\ sum_sq v = (8192 / 10000)%R
    /\ ~ (Rabs (sum_sq v - 1) <= 1 / 1000000)%R.
Proof.
  exists (env_of 9), (reset_env (env_of 9)), (_get_statevec (reset_env (env_of 9))).
  split; [apply (init_env 3); lia|]. split; [apply reset_ok|].
  split; [reflexivity|].
  assert (E : _get_statevec (reset_env (env_of 9)) = repeat (4 / 100, 0)%R 512).
  { unfold _get_statevec. rewrite reset_statevector.
    change (qnum (env_of 9)) with 9. rewrite map_repeat.
    unfold Caround2, RtoC. cbn [fst snd].
    rewrite around2_inv_sqrt512, around2_zero. reflexivity. }
  assert (V : sum_sq (repeat (4 / 100, 0)%R 512) = (8192 / 10000)%R).
  { rewrite sum_sq_repeat. unfold Cnorm2. cbn [fst snd].
    change (Z.of_nat 512) with 512%Z. lra. }
  split; [exact E|]. rewrite E, V. split; [reflexivity|].
  intros H. unfold Rabs in H. destruct (Rcase_abs _) in H; lra.
Qed.

(** ** Pauli-X twice *)

Lemma nth_error_flat_pairs (a n q : nat) (rest : list Move) :
  q < n ->
  nth_error (flat_map (fun q => [([q], HGate); ([q], XGate)]) (seq a n) ++ rest)
            (2 * q + 1)
  = Some ([a + q], XGate).
Proof.
  revert a q. induction n as [|n IH]; intros a q H; [lia|].
  destruct q as [|q].
  - simpl. rewrite Nat.add_0_r. reflexivity.
  - replace (2 * S q + 1) with (S (S (2 * q + 1))) by lia.
    cbn [seq flat_map app nth_error]. rewrite IH by lia.
    do 3 f_equal. lia.
Qed.

Lemma pauli_x_lookup (n q : nat) :
  q < n ->
  dict_get (_init_moves_dict n) (Z.of_nat (2 * q + 1)) = Ok ([q], XGate).
Proof.
  intros H. rewrite init_moves_enumerate.
  apply (enumerate_get 0 (move_list n) (2 * q + 1)).
  unfold move_list, range. apply (nth_error_flat_pairs 0 n q _ H).
Qed.

Lemma move_lookup (self : QTicTacToeEnv) (action : Z) (m : Move) :
  dict_get (moves self) action = Ok m ->
  valid_instr (num_qubits (circuit self)) (snd m, fst m) = true ->
  move action self = (after_move self m action, Ok tt).
Proof.
  intros G V. unfold valid_instr in V. simpl in V.
  unfold move. simpl. rewrite G. simpl.
  unfold circuit_append. rewrite V. reflexivity.
Qed.

Lemma apply_X_twice (q : nat) (psi : amplitudes) (i : nat) :
  apply_gate XGate [q] (apply_gate XGate [q] psi) i = psi i.
Proof. rewrite !apply_X, flip_flip. reflexivity. Qed.

(** C8. On any board circuit, two successive Pauli-X moves on the same
    qubit [q] leave the state vector as it was before them, and so the
    vector [_get_statevec] returns. *)
Theorem pauli_x_twice (self : QTicTacToeEnv) (q : nat) :
  moves self = _init_moves_dict (qnum self) ->
  num_qubits (circuit self) = qnum self ->
  q < qnum self ->
  let x := Z.of_nat (2 * q + 1) in
  dict_get (moves self) x = Ok ([q], XGate)
  /\ exists self',
       steps [x; x] self = (self', Ok tt)
       /\ data (circuit self') = data (circuit self) ++ [(XGate, [q]); (XGate, [q])]
       /\ get_statevector (circuit self') = get_statevector (circuit self)
       /\ _get_statevec self' = _get_statevec self.
Proof.
  intros Hm Hn Hq x.
  assert (G : dict_get (moves self) x = Ok ([q], XGate))
    by (rewrite Hm; apply pauli_x_lookup; exact Hq).
  split; [exact G|].
  assert (L : (q <? num_qubits (circuit self)) = true)
    by (apply Nat.ltb_lt; lia).
  set (self1 := after_move self ([q], XGate) x).
  assert (M1 : move x self = (self1, Ok tt)).
  { apply move_lookup; [exact G|]. unfold valid_instr. simpl.
    rewrite L. reflexivity. }
  assert (M2 : move x self1 = (after_move self1 ([q], XGate) x, Ok tt)).
  { apply move_lookup; [exact G|]. unfold valid_instr. simpl.
    rewrite L. reflexivity. }
  exists (after_move self1 ([q], XGate) x). split.
  - cbn [steps]. unfold step. rewrite M1, M2. reflexivity.
  - cbn [after_move self1 circuit data num_qubits num_clbits fst snd].
    assert (S2 : get_statevector
                   (mk_circuit (num_qubits (circuit self))
                      (num_clbits (circuit self))
                      ((data (circuit self) ++ [(XGate, [q])]) ++ [(XGate, [q])]))
                 = get_statevector (circuit self)).
    { unfold get_statevector, statevector. cbn [num_qubits data].
      apply map_ext. intros i. rewrite !run_gates_snoc. apply apply_X_twice. }
    split; [rewrite <- app_assoc; reflexivity|].
    split; [exact S2|]. unfold _get_statevec.
    cbn [after_move self1 circuit data num_qubits num_clbits fst snd].
    rewrite S2. reflexivity.
Qed.

Lemma pauli_x_twice_after_reset :
  moves (reset_env (env_of 4)) = _init_moves_dict (qnum (reset_env (env_of 4)))
  /\ num_qubits (circuit (reset_env (env_of 4))) = qnum (reset_env (env_of 4))
  /\ 2 < qnum (reset_env (env_of 4))
  /\ dict_get (moves (reset_env (env_of 4))) 5 = Ok ([2], XGate)
  /\ exists self',
       steps [5; 5]%Z (reset_env (env_of 4)) = (self', Ok tt)
       /\ data (circuit self')
          = data (circuit (reset_env (env_of 4))) ++ [(XGate, [2]); (XGate, [2])]
       /\ get_statevector (circuit self')
          = get_statevector (circuit (reset_env (env_of 4)))
       /\ _get_statevec self' = _get_statevec (reset_env (env_of 4)).
Proof.
  split; [reflexivity|]. split; [reflexivity|]. split; [simpl; lia|].
  apply (pauli_x_twice (reset_env (env_of 4)) 2); [reflexivity | reflexivity |].
  simpl. lia.
Defined.

(** ** A move that is not in the table *)

Lemma move_unknown (self : QTicTacToeEnv) (action : Z) :
  dict_get (moves self) action = Raise (KeyError action) ->
  move action self
  = (set_status_id self (status_id self ++ format_action action),
     Raise (KeyError action)).
Proof.
  intros H. unfold move. cbn [moves set_status_id]. rewrite H. reflexivity.
Qed.

(** C4. On the one-qubit board (moves 0 and 1), [move 5] raises
    [KeyError]: the circuit is left as it was, but [status_id], empty
    before the call, has recorded the move that was not made. *)
Theorem unknown_move_recorded :
  exists env env',
    __init__ 1 = Ok env
    /\ keys (moves env) = [0; 1]%Z
    /\ move 5 env = (env', Raise (KeyError 5))
    /\ circuit env' = circuit env
    /\ status_id env = []
    /\ status_id env' = list_ascii_of_string "5-"
    /\ env' <> env.
Proof.
  exists (env_of 1), (set_status_id (env_of 1) (list_ascii_of_string "5-")).
  split; [apply init_env; lia|]. split; [reflexivity|].
  split; [apply (move_unknown (env_of 1) 5); reflexivity|].
  split; [reflexivity|]. split; [reflexivity|]. split; [reflexivity|].
  intros E. apply (f_equal status_id) in E. discriminate E.
Qed.

(** * Further properties of the code *)

(** ** The lines of a board *)

Lemma comprehension_cases {A B} (f : A -> result B) (l : list A) (e : exn) :
  (forall x, In x l -> (exists y, f x = Ok y) \/ f x = Raise e) ->
  (exists ys, comprehension f l = Ok ys) \/ comprehension f l = Raise e.
Proof.
  induction l as [|x l IH]; intros H; simpl; [left; eauto|].
  destruct (H x (or_introl eq_refl)) as [[y E]|E]; rewrite E; simpl;
    [|right; reflexivity].
  destruct IH as [[ys E']|E']; [intros z Hz; apply H; right; exact Hz | |];
    rewrite E'; simpl; [left; eauto | right; reflexivity].
Qed.

Lemma comprehension_raise {A B} (f : A -> result B) (l : list A) (e : exn) :
  (forall x, In x l -> (exists y, f x = Ok y) \/ f x = Raise e) ->
  (exists x, In x l /\ f x = Raise e) ->
  comprehension f l = Raise e.
Proof.
  induction l as [|x l IH]; intros H [x0 [Hin Hx0]]; [contradiction|].
  simpl. destruct (H x (or_introl eq_refl)) as [[y E]|E]; rewrite E; simpl;
    [|reflexivity].
  rewrite IH; [reflexivity | intros z Hz; apply H; right; exact Hz |].
  destruct Hin as [<-|Hin]; [congruence|]. exists x0. split; assumption.
Qed.

Lemma index_cases {A} (s : list A) (i : nat) :
  (exists c, index s i = Ok c) \/ index s i = Raise IndexError.
Proof. unfold index. destruct (nth_error s i); [left; eauto | right; reflexivity]. Qed.

Lemma index_cell_cases (rows : list str) (i j : nat) :
  (exists c, (r <- index rows i ;; index r j) = Ok c)
  \/ (r <- index rows i ;; index r j) = Raise IndexError.
Proof.
  destruct (index_cases rows i) as [[r E]|E]; rewrite E; simpl;
    [apply index_cases | right; reflexivity].
Qed.

Lemma board_cols_short (d : nat) (board : str) :
  1 <= d -> List.length board < d * d ->
  board_cols d (board_rows d board) = Raise IndexError.
Proof.
  intros Hd Hlen. unfold board_cols.
  set (rows := board_rows d board).
  set (last := slice board ((d - 1) * d) ((d - 1 + 1) * d)).
  assert (Hrows : List.length rows = d)
    by (unfold rows, board_rows, range; rewrite length_map, length_seq;
        reflexivity).
  assert (Hnth : nth_error rows (d - 1) = Some last).
  { unfold rows, board_rows, range.
    rewrite nth_error_map, nth_error_seq.
    destruct (Nat.ltb_spec (d - 1) d); [reflexivity | lia]. }
  assert (Hl : List.length last < d).
  { unfold last, slice. rewrite length_firstn, length_skipn. nia. }
  apply comprehension_raise.
  - intros j _. apply comprehension_cases. intros i _. apply index_cell_cases.
  - exists (List.length last). split; [apply in_seq; lia|].
    apply comprehension_raise.
    + intros i _. apply index_cell_cases.
    + exists (d - 1). split; [apply in_seq; lia|].
      unfold index at 1. rewrite Hnth. simpl. unfold index.
      rewrite (proj2 (nth_error_None last (List.length last)) (Nat.le_refl _)).
      reflexivity.
Qed.

(** X1. [_win_check] returns exactly on the boards that have at least
    [d * d] characters, [d] the integer square root of [qnum]; the value is
    then 0, 1 or 2. On a shorter board the column read runs out of a row
    and [IndexError] is raised. *)
Theorem win_check_returns (qnum : nat) (board : str) :
  1 <= Nat.sqrt qnum ->
  (Nat.sqrt qnum * Nat.sqrt qnum <= List.length board ->
   exists w, _win_check qnum board = Ok w /\ w <= 2)
  /\ (List.length board < Nat.sqrt qnum * Nat.sqrt qnum ->
      _win_check qnum board = Raise IndexError).
Proof.
  intros Hd. split.
  - apply win_check_total.
  - intros Hlen. unfold _win_check, board_lines.
    rewrite (board_cols_short _ _ Hd Hlen). reflexivity.
Qed.

Lemma win_check_returns_dim2 :
  1 <= Nat.sqrt 4
  /\ Nat.sqrt 4 * Nat.sqrt 4 <= List.length (list_ascii_of_string "0110")
  /\ (exists w, _win_check 4 (list_ascii_of_string "0110") = Ok w /\ w <= 2)
  /\ List.length (list_ascii_of_string "011") < Nat.sqrt 4 * Nat.sqrt 4
  /\ _win_check 4 (list_ascii_of_string "011") = Raise IndexError.
Proof.
  assert (D : 1 <= Nat.sqrt 4) by (vm_compute; lia).
  assert (L : Nat.sqrt 4 * Nat.sqrt 4 <= List.length (list_ascii_of_string "0110"))
    by (vm_compute; lia).
  assert (S : List.length (list_ascii_of_string "011") < Nat.sqrt 4 * Nat.sqrt 4)
    by (vm_compute; lia).
  split; [exact D|]. split; [exact L|].
  split; [exact (proj1 (win_check_returns 4 (list_ascii_of_string "0110") D) L)|].
  split; [exact S|].
  exact (proj2 (win_check_returns 4 (list_ascii_of_string "011") D) S).
Defined.

Lemma cell_grid (d : nat) (board : str) (i j : nat) :
  i < d -> j < d -> cell (board_rows d board) i j = grid d board i j.
Proof.
  intros Hi Hj. unfold cell, grid, board_rows, range.
  rewrite (nth_indep _ [] (slice board (0 * d) ((0 + 1) * d)))
    by (rewrite length_map, length_seq; exact Hi).
  rewrite (map_nth (fun i => slice board (i * d) ((i + 1) * d))).
  rewrite seq_nth by exact Hi. change (0 + i) with i. unfold slice.
  rewrite nth_firstn, nth_skipn.
  destruct (Nat.ltb_spec j ((i + 1) * d - i * d)); [reflexivity | nia].
Qed.

Lemma nth_map_seq {A} (f : nat -> A) (n j : nat) (dflt : A) :
  j < n -> nth j (map f (seq 0 n)) dflt = f j.
Proof.
  intros H. rewrite (nth_indep (map f (seq 0 n)) dflt (f 0))
    by (rewrite length_map, length_seq; exact H).
  rewrite (map_nth f), seq_nth by exact H. reflexivity.
Qed.

Lemma slice_grid (d : nat) (board : str) (i : nat) :
  d * d <= List.length board -> i < d ->
  slice board (i * d) ((i + 1) * d) = map (fun j => grid d board i j) (range d).
Proof.
  intros Hlen Hi. apply (nth_ext _ _ "0"%char "0"%char).
  - unfold slice, range.
    rewrite length_firstn, length_skipn, length_map, length_seq. nia.
  - intros j Hj. unfold slice in *.
    rewrite length_firstn, length_skipn in Hj.
    assert (Hjd : j < d) by nia.
    unfold range. rewrite (nth_map_seq _ d j "0"%char Hjd).
    rewrite nth_firstn, nth_skipn. unfold grid.
    destruct (Nat.ltb_spec j ((i + 1) * d - i * d)); [reflexivity | nia].
Qed.

Lemma lines_of_grid (d : nat) (board : str) :
  d * d <= List.length board ->
  lines_of d board
  = map (fun i => map (fun j => grid d board i j) (range d)) (range d)
    ++ map (fun j => map (fun i => grid d board i j) (range d)) (range d)
    ++ [map (fun i => grid d board i i) (range d);
        map (fun i => grid d board i (d - i - 1)) (range d)].
Proof.
  intros Hlen. unfold lines_of. f_equal; [|f_equal; [|f_equal; [|f_equal]]].
  - unfold board_rows. apply map_ext_in. intros i Hi. apply in_seq in Hi.
    apply slice_grid; [exact Hlen | lia].
  - apply map_ext_in. intros j Hj. apply in_seq in Hj.
    apply map_ext_in. intros i Hi. apply in_seq in Hi.
    apply cell_grid; lia.
  - apply map_ext_in. intros i Hi. apply in_seq in Hi. apply cell_grid; lia.
  - apply map_ext_in. intros i Hi. apply in_seq in Hi. apply cell_grid; lia.
Qed.

(** X2. On a board of at least [d * d] characters the lines are read off
    the row-major grid: the [d] rows, then the [d] columns, then the main
    diagonal and the anti-diagonal, [2 * d + 2] lines in all. *)
Theorem board_lines_grid (d : nat) (board : str) :
  d * d <= List.length board ->
  board_lines d board
  = Ok (map (fun i => map (fun j => grid d board i j) (range d)) (range d)
        ++ map (fun j => map (fun i => grid d board i j) (range d)) (range d)
        ++ [map (fun i => grid d board i i) (range d);
            map (fun i => grid d board i (d - i - 1)) (range d)])
  /\ forall lines, board_lines d board = Ok lines ->
                   List.length lines = 2 * d + 2.
Proof.
  intros Hlen. rewrite (board_lines_ok _ _ Hlen), (lines_of_grid _ _ Hlen).
  split; [reflexivity|].
  intros lines H. inversion H; subst lines.
  unfold range. rewrite !length_app, !length_map, !length_seq. simpl. lia.
Qed.

Lemma board_lines_grid_dim2 :
  2 * 2 <= List.length (list_ascii_of_string "0110")
  /\ board_lines 2 (list_ascii_of_string "0110")
     = Ok (map list_ascii_of_string ["01"; "10"; "01"; "10"; "00"; "11"]%string).
Proof.
  split; [simpl; lia|].
  rewrite (proj1 (board_lines_grid 2 (list_ascii_of_string "0110")
                    ltac:(simpl; lia))).
  reflexivity.
Defined.

(** ** The verdict on a board *)

Lemma board_lines_ok_length (d : nat) (board : str) (lines : list str) :
  1 <= d -> board_lines d board = Ok lines ->
  d * d <= List.length board /\ lines = lines_of d board.
Proof.
  intros Hd H. destruct (Nat.le_gt_cases (d * d) (List.length board)) as [L|L].
  - split; [exact L|]. rewrite (board_lines_ok _ _ L) in H. congruence.
  - unfold board_lines in H. rewrite (board_cols_short _ _ Hd L) in H.
    discriminate H.
Qed.

Lemma verdict_cases (h1 h2 : bool) :
  (verdict h1 h2 = 1 <-> h1 = true /\ h2 <> true)
  /\ (verdict h1 h2 = 2 <-> h2 = true /\ h1 <> true)
  /\ (verdict h1 h2 = 0 <->
      (h1 = true /\ h2 = true) \/ (h1 <> true /\ h2 <> true)).
Proof. destruct h1, h2; unfold verdict; simpl; intuition congruence. Qed.

(** X3. The label [_win_check] gives a board, by the lines it has: 1 when
    there is a line of zeros and no line of ones, 2 when there is a line of
    ones and no line of zeros, and 0 both when the two kinds are present and
    when neither is. *)
Theorem win_check_cases (d : nat) (board : str) (lines : list str) :
  1 <= d -> board_lines d board = Ok lines ->
  let zeros := In (repeat "0"%char d) lines in
  let ones := In (repeat "1"%char d) lines in
  (_win_check (d * d) board = Ok 1 <-> zeros /\ ~ ones)
  /\ (_win_check (d * d) board = Ok 2 <-> ones /\ ~ zeros)
  /\ (_win_check (d * d) board = Ok 0 <->
      (zeros /\ ones) \/ (~ zeros /\ ~ ones)).
Proof.
  intros Hd Hl. destruct (board_lines_ok_length d board lines Hd Hl) as [L ->].
  pose proof (win_check_verdict (d * d) board) as V. simpl in V.
  rewrite Nat.sqrt_square in V. rewrite (V Hd L). clear V.
  cbv zeta. rewrite <- !has_line_In.
  assert (O : forall a b : nat, @Ok nat a = Ok b <-> a = b)
    by (intros a b; split; congruence).
  rewrite !O. apply verdict_cases.
Qed.

Lemma win_check_cases_0110 :
  1 <= 2
  /\ board_lines 2 (list_ascii_of_string "0110")
     = Ok (map list_ascii_of_string ["01"; "10"; "01"; "10"; "00"; "11"]%string)
  /\ (_win_check (2 * 2) (list_ascii_of_string "0110") = Ok 0 <->
      (In (repeat "0"%char 2)
          (map list_ascii_of_string ["01"; "10"; "01"; "10"; "00"; "11"]%string)
       /\ In (repeat "1"%char 2)
             (map list_ascii_of_string
                  ["01"; "10"; "01"; "10"; "00"; "11"]%string))
      \/ (~ In (repeat "0"%char 2)
            (map list_ascii_of_string
                 ["01"; "10"; "01"; "10"; "00"; "11"]%string)
          /\ ~ In (repeat "1"%char 2)
               (map list_ascii_of_string
                    ["01"; "10"; "01"; "10"; "00"; "11"]%string))).
Proof.
  split; [lia|]. split; [reflexivity|].
  apply (win_check_cases 2 (list_ascii_of_string "0110")
           (map list_ascii_of_string ["01"; "10"; "01"; "10"; "00"; "11"]%string));
    [lia | reflexivity].
Defined.

(** ** Looking a collapsed state up *)

(** X4. In a constructed environment [check_end] returns, for every index
    below [2 ** qnum], the label [_win_check] gives the board string of
    that index, and 0 (a draw) for every index outside the table. *)
Theorem check_end_agrees (grid_size : Z) (env : QTicTacToeEnv) (x : nat) :
  __init__ grid_size = Ok env ->
  (x < 2 ^ qnum env ->
   _win_check (qnum env) (board_of (qnum env) x) = Ok (check_end env x))
  /\ (2 ^ qnum env <= x -> check_end env x = 0)
  /\ check_end env x <= 2.
Proof.
  intros H. destruct (Z.eq_dec grid_size 0) as [->|N]; [discriminate H|].
  rewrite (init_env _ N) in H. inversion H. clear H.
  set (n := Z.to_nat (grid_size ^ 2)). cbn [qnum env_of].
  assert (A : x < 2 ^ n ->
              _win_check n (board_of n x) = Ok (check_end (env_of n) x)).
  { intros Hx. destruct (win_check_board_of n x) as [w [Hw _]].
    destruct (check_end_label n x w Hx Hw) as [E _]. rewrite E. exact Hw. }
  assert (B : 2 ^ n <= x -> check_end (env_of n) x = 0).
  { intros Hx. unfold check_end. cbn [endings_lookuptable env_of wins_1 wins_2].
    destruct (existsb (Nat.eqb x) (filter (label_is n 1) (range (2 ^ n)))) eqn:E1.
    { apply existsb_eqb_In, filter_In in E1. destruct E1 as [E1 _].
      apply in_seq in E1. lia. }
    destruct (existsb (Nat.eqb x) (filter (label_is n 2) (range (2 ^ n)))) eqn:E2.
    { apply existsb_eqb_In, filter_In in E2. destruct E2 as [E2 _].
      apply in_seq in E2. lia. }
    reflexivity. }
  split; [exact A|]. split; [exact B|].
  unfold check_end.
  destruct (existsb _ _); [lia|]. destruct (existsb _ _); lia.
Qed.

Lemma check_end_agrees_dim2 :
  __init__ 2 = Ok (env_of 4)
  /\ (7 < 2 ^ qnum (env_of 4) ->
      _win_check (qnum (env_of 4)) (board_of (qnum (env_of 4)) 7)
      = Ok (check_end (env_of 4) 7))
  /\ (2 ^ qnum (env_of 4) <= 7 -> check_end (env_of 4) 7 = 0)
  /\ check_end (env_of 4) 7 <= 2.
Proof.
  assert (I : __init__ 2 = Ok (env_of 4)) by (vm_compute; reflexivity).
  split; [exact I|]. exact (check_end_agrees 2 (env_of 4) 7 I).
Defined.

(** ** Board strings and index bits *)

Lemma bin_pos_bits (p : positive) :
  Pos.to_nat p < 2 ^ List.length (bin_pos p)
  /\ forall k, k < List.length (bin_pos p) ->
       nth_error (bin_pos p) k
       = Some (bit_char (Nat.testbit (Pos.to_nat p)
                                     (List.length (bin_pos p) - 1 - k))).
Proof.
  induction p as [p [IHl IHb]|p [IHl IHb]|].
  - assert (E : Pos.to_nat p~1 = 2 * Pos.to_nat p + 1)
      by (rewrite Pos2Nat.inj_xI; lia).
    simpl bin_pos. rewrite length_app, E. simpl List.length.
    replace (List.length (bin_pos p) + 1) with (S (List.length (bin_pos p)))
      by lia.
    split; [rewrite Nat.pow_succ_r'; lia|]. intros k Hk.
    destruct (Nat.lt_ge_cases k (List.length (bin_pos p))) as [L|L].
    + rewrite nth_error_app1, IHb by exact L.
      replace (S (List.length (bin_pos p)) - 1 - k)
        with (S (List.length (bin_pos p) - 1 - k)) by lia.
      rewrite Nat.testbit_odd_succ'. reflexivity.
    + rewrite nth_error_app2 by exact L.
      replace (k - List.length (bin_pos p)) with 0 by lia.
      replace (S (List.length (bin_pos p)) - 1 - k) with 0 by lia.
      rewrite Nat.testbit_odd_0. reflexivity.
  - assert (E : Pos.to_nat p~0 = 2 * Pos.to_nat p)
      by (rewrite Pos2Nat.inj_xO; lia).
    simpl bin_pos. rewrite length_app, E. simpl List.length.
    replace (List.length (bin_pos p) + 1) with (S (List.length (bin_pos p)))
      by lia.
    split; [rewrite Nat.pow_succ_r'; lia|]. intros k Hk.
    destruct (Nat.lt_ge_cases k (List.length (bin_pos p))) as [L|L].
    + rewrite nth_error_app1, IHb by exact L.
      replace (S (List.length (bin_pos p)) - 1 - k)
        with (S (List.length (bin_pos p) - 1 - k)) by lia.
      rewrite Nat.testbit_even_succ'. reflexivity.
    + rewrite nth_error_app2 by exact L.
      replace (k - List.length (bin_pos p)) with 0 by lia.
      replace (S (List.length (bin_pos p)) - 1 - k) with 0 by lia.
      rewrite Nat.testbit_even_0. reflexivity.
  - simpl. split; [lia|]. intros k Hk. replace k with 0 by lia. reflexivity.
Qed.

Lemma bin_digits_bits (x : nat) :
  x < 2 ^ List.length (bin_digits x)
  /\ forall k, k < List.length (bin_digits x) ->
       nth_error (bin_digits x) k
       = Some (bit_char (Nat.testbit x (List.length (bin_digits x) - 1 - k))).
Proof.
  unfold bin_digits. destruct (N.of_nat x) as [|p] eqn:E.
  - assert (x = 0) by lia. subst x. simpl. split; [lia|].
    intros k Hk. replace k with 0 by lia. reflexivity.
  - rewrite <- (bin_digits_pos _ _ E). apply bin_pos_bits.
Qed.

Lemma board_of_char (n x k : nat) :
  x < 2 ^ n -> k < n ->
  nth_error (board_of n x) k = Some (bit_char (Nat.testbit x (n - 1 - k))).
Proof.
  intros Hx Hk.
  rewrite board_of_digits. destruct (bin_digits_bits x) as [Hl Hb].
  assert (Hn : List.length (bin_digits x) <= n)
    by (apply bin_digits_length; [exact Hx | lia]).
  set (L := List.length (bin_digits x)) in *.
  destruct (Nat.lt_ge_cases k (n - L)) as [A|A].
  - rewrite nth_error_app1 by (rewrite repeat_length; exact A).
    rewrite nth_error_repeat by exact A.
    rewrite (proj1 (lt_pow2_bits x L) Hl (n - 1 - k)) by lia. reflexivity.
  - rewrite nth_error_app2 by (rewrite repeat_length; exact A).
    rewrite repeat_length, Hb by lia. do 3 f_equal. lia.
Qed.

(** X5. The board string of an index below [2 ** n] has [n] characters,
    and its character [k] is the binary digit of bit [n - 1 - k] of the
    index: the first cell of the board is the highest bit. *)
Theorem board_of_bits (n x k : nat) :
  x < 2 ^ n -> k < n ->
  List.length (board_of n x) = n
  /\ nth_error (board_of n x) k = Some (bit_char (Nat.testbit x (n - 1 - k))).
Proof.
  intros Hx Hk. split; [apply board_of_length; [exact Hx | lia]|].
  apply board_of_char; assumption.
Qed.

Lemma board_of_bits_0110 :
  6 < 2 ^ 4 /\ 1 < 4
  /\ List.length (board_of 4 6) = 4
  /\ nth_error (board_of 4 6) 1 = Some (bit_char (Nat.testbit 6 (4 - 1 - 1))).
Proof.
  split; [simpl; lia|]. split; [lia|].
  apply (board_of_bits 4 6 1); simpl; lia.
Defined.

(** ** The two players exchanged *)

Lemma compl_index_spec (n x m : nat) :
  Nat.testbit (compl_index n x) m
  = if m <? n then negb (Nat.testbit x m) else Nat.testbit x m.
Proof.
  unfold compl_index. rewrite Nat.lxor_spec.
  destruct (Nat.ltb_spec m n).
  - rewrite Nat.ones_spec_low by assumption.
    destruct (Nat.testbit x m); reflexivity.
  - rewrite Nat.ones_spec_high by assumption.
    destruct (Nat.testbit x m); reflexivity.
Qed.

Lemma compl_index_lt (n x : nat) : x < 2 ^ n -> compl_index n x < 2 ^ n.
Proof.
  intros H. apply lt_pow2_bits. intros m Hm. rewrite compl_index_spec.
  destruct (Nat.ltb_spec m n); [lia|].
  apply (proj1 (lt_pow2_bits x n) H). exact Hm.
Qed.

Lemma compl_index_invol (n x : nat) : compl_index n (compl_index n x) = x.
Proof.
  apply Nat.bits_inj. intros m. rewrite !compl_index_spec.
  destruct (m <? n), (Nat.testbit x m); reflexivity.
Qed.

Lemma compl_bit_char (b : bool) : compl_char (bit_char b) = bit_char (negb b).
Proof. destruct b; reflexivity. Qed.

Lemma board_of_compl (n x : nat) :
  x < 2 ^ n -> 1 <= n ->
  board_of n (compl_index n x) = map compl_char (board_of n x).
Proof.
  intros Hx Hn. apply nth_error_ext. intros k.
  destruct (Nat.lt_ge_cases k n) as [L|L].
  - rewrite nth_error_map.
    rewrite (board_of_char n (compl_index n x) k (compl_index_lt n x Hx) L).
    rewrite (board_of_char n x k Hx L). simpl.
    rewrite compl_bit_char, compl_index_spec.
    destruct (Nat.ltb_spec (n - 1 - k) n); [reflexivity | lia].
  - rewrite (proj2 (nth_error_None _ _)), (proj2 (nth_error_None _ _));
      [reflexivity | |].
    + rewrite length_map, board_of_length by assumption. exact L.
    + rewrite board_of_length by (try apply compl_index_lt; assumption).
      exact L.
Qed.

Lemma grid_map (d : nat) (board : str) (i j : nat) :
  d * d <= List.length board -> i < d -> j < d ->
  grid d (map compl_char board) i j = compl_char (grid d board i j).
Proof.
  intros Hlen Hi Hj. unfold grid.
  rewrite (nth_indep (map compl_char board) "0"%char (compl_char "0"%char))
    by (rewrite length_map; nia).
  apply map_nth.
Qed.

Lemma lines_of_map (d : nat) (board : str) :
  d * d <= List.length board ->
  lines_of d (map compl_char board) = map (map compl_char) (lines_of d board).
Proof.
  intros Hlen.
  rewrite (lines_of_grid d (map compl_char board))
    by (rewrite length_map; exact Hlen).
  rewrite (lines_of_grid d board Hlen).
  rewrite !map_app, !map_map. cbn [map].
  f_equal; [|f_equal; [|f_equal; [|f_equal]]].
  - apply map_ext_in. intros i Hi. apply in_seq in Hi. rewrite map_map.
    apply map_ext_in. intros j Hj. apply in_seq in Hj. apply grid_map; lia.
  - apply map_ext_in. intros j Hj. apply in_seq in Hj. rewrite map_map.
    apply map_ext_in. intros i Hi. apply in_seq in Hi. apply grid_map; lia.
  - rewrite map_map. apply map_ext_in. intros i Hi. apply in_seq in Hi.
    apply grid_map; lia.
  - rewrite map_map. apply map_ext_in. intros i Hi. apply in_seq in Hi.
    apply grid_map; lia.
Qed.

Lemma compl_char_bit (c : ascii) (b : bool) :
  compl_char c = bit_char b <-> c = bit_char (negb b).
Proof.
  split.
  - unfold compl_char. destruct (Ascii.eqb_spec c "0") as [->|N0].
    + destruct b; [reflexivity | discriminate].
    + destruct (Ascii.eqb_spec c "1") as [->|N1].
      * destruct b; [discriminate | reflexivity].
      * intros ->. destruct b; contradiction.
  - intros ->. rewrite compl_bit_char, negb_involutive. reflexivity.
Qed.

Lemma map_compl_repeat (line : str) (d : nat) (b : bool) :
  map compl_char line = repeat (bit_char b) d
  <-> line = repeat (bit_char (negb b)) d.
Proof.
  revert d. induction line as [|c line IH]; intros d; destruct d as [|d]; simpl;
    try (split; reflexivity); try (split; intros H; discriminate H).
  split; intros H; injection H as Hc Hl.
  - apply compl_char_bit in Hc. apply IH in Hl. congruence.
  - apply compl_char_bit in Hc. apply IH in Hl. congruence.
Qed.

Lemma has_line_compl (lines : list str) (d : nat) (b : bool) :
  has_line (repeat (bit_char b) d) (map (map compl_char) lines)
  = has_line (repeat (bit_char (negb b)) d) lines.
Proof.
  induction lines as [|line lines IH]; [reflexivity|].
  unfold has_line in *. simpl. rewrite IH. f_equal.
  destruct (str_eqb line (repeat (bit_char (negb b)) d)) eqn:E.
  - apply str_eqb_eq. apply map_compl_repeat. apply str_eqb_eq. exact E.
  - destruct (str_eqb (map compl_char line) (repeat (bit_char b) d)) eqn:E';
      [|reflexivity].
    apply str_eqb_eq, map_compl_repeat, str_eqb_eq in E'. congruence.
Qed.

Lemma verdict_swap (h1 h2 : bool) :
  verdict h2 h1 = swap_players (verdict h1 h2).
Proof. destruct h1, h2; reflexivity. Qed.

Lemma win_check_compl (qnum : nat) (board : str) (w : nat) :
  1 <= Nat.sqrt qnum ->
  Nat.sqrt qnum * Nat.sqrt qnum <= List.length board ->
  _win_check qnum board = Ok w ->
  _win_check qnum (map compl_char board) = Ok (swap_players w).
Proof.
  intros Hd Hlen Hw.
  pose proof (win_check_verdict qnum board Hd Hlen) as V.
  pose proof (win_check_verdict qnum (map compl_char board) Hd) as V'.
  rewrite length_map in V'. specialize (V' Hlen).
  rewrite (lines_of_map _ _ Hlen) in V'.
  rewrite (has_line_compl _ _ false), (has_line_compl _ _ true) in V'.
  simpl negb in V'. simpl bit_char in V'. rewrite V'.
  rewrite V in Hw. inversion Hw. f_equal. apply verdict_swap.
Qed.

(** X6. Exchanging the digits 0 and 1 on a board exchanges the players:
    [_win_check] gives the complemented board the label 2 where it gave 1,
    1 where it gave 2, and 0 where it gave 0. *)
Theorem win_check_complement (qnum : nat) (board : str) (w : nat) :
  1 <= Nat.sqrt qnum ->
  Nat.sqrt qnum * Nat.sqrt qnum <= List.length board ->
  _win_check qnum board = Ok w ->
  _win_check qnum (map compl_char board) = Ok (swap_players w).
Proof. apply win_check_compl. Qed.

Lemma win_check_complement_0001 :
  1 <= Nat.sqrt 4
  /\ Nat.sqrt 4 * Nat.sqrt 4 <= List.length (list_ascii_of_string "0001")
  /\ _win_check 4 (list_ascii_of_string "0001") = Ok 1
  /\ map compl_char (list_ascii_of_string "0001") = list_ascii_of_string "1110"
  /\ _win_check 4 (map compl_char (list_ascii_of_string "0001"))
     = Ok (swap_players 1).
Proof.
  assert (D : 1 <= Nat.sqrt 4) by (vm_compute; lia).
  assert (L : Nat.sqrt 4 * Nat.sqrt 4 <= List.length (list_ascii_of_string "0001"))
    by (vm_compute; lia).
  assert (W : _win_check 4 (list_ascii_of_string "0001") = Ok 1) by reflexivity.
  split; [exact D|]. split; [exact L|]. split; [exact W|].
  split; [reflexivity|].
  exact (win_check_complement 4 (list_ascii_of_string "0001") 1 D L W).
Defined.

Lemma label_is_compl (n x : nat) :
  1 <= Nat.sqrt n -> x < 2 ^ n ->
  label_is n 2 (compl_index n x) = label_is n 1 x.
Proof.
  intros Hd Hx. assert (Hn : 1 <= n).
  { destruct n; [vm_compute in Hd; lia | lia]. }
  destruct (win_check_board_of n x) as [w [Hw Hle]].
  assert (Hlen : Nat.sqrt n * Nat.sqrt n <= List.length (board_of n x)).
  { pose proof (sqrt_square_le n). pose proof (board_of_length_ge n x). lia. }
  pose proof (win_check_compl n (board_of n x) w Hd Hlen Hw) as C.
  rewrite <- (board_of_compl n x Hx Hn) in C.
  unfold label_is. rewrite C, Hw.
  destruct w as [|[|[|w]]]; reflexivity.
Qed.

(** X7. The table of a constructed environment is symmetric between the
    players: an index is a win for player 1 exactly when the index with all
    [qnum] bits complemented is a win for player 2, and the two players
    have the same number of winning outcomes. *)
Theorem table_symmetric (grid_size : Z) (env : QTicTacToeEnv) :
  __init__ grid_size = Ok env ->
  (forall x, x < 2 ^ qnum env ->
     (In x (wins_1 (endings_lookuptable env))
      <-> In (compl_index (qnum env) x) (wins_2 (endings_lookuptable env))))
  /\ List.length (wins_1 (endings_lookuptable env))
     = List.length (wins_2 (endings_lookuptable env)).
Proof.
  intros H. destruct (Z.eq_dec grid_size 0) as [->|N]; [discriminate H|].
  rewrite (init_env _ N) in H. set (n := Z.to_nat (grid_size ^ 2)) in *.
  assert (E : env = env_of n) by congruence. subst env. clear H.
  cbn [qnum env_of endings_lookuptable wins_1 wins_2].
  assert (Hd : 1 <= Nat.sqrt n).
  { subst n. replace (grid_size ^ 2)%Z with (Z.abs grid_size * Z.abs grid_size)%Z
      by lia.
    rewrite Z2Nat.inj_mul by lia. rewrite Nat.sqrt_square. lia. }
  assert (A : forall x, x < 2 ^ n ->
                (In x (filter (label_is n 1) (range (2 ^ n)))
                 <-> In (compl_index n x) (filter (label_is n 2) (range (2 ^ n))))).
  { intros x Hx. rewrite !filter_In. unfold range. rewrite !in_seq.
    rewrite (label_is_compl n x Hd Hx).
    pose proof (compl_index_lt n x Hx). intuition lia. }
  split; [exact A|].
  rewrite <- (length_map (compl_index n)). apply Permutation_length.
  apply NoDup_Permutation.
  - apply Finite.Injective_map_NoDup_in.
    + intros x y _ _ E. rewrite <- (compl_index_invol n x), E.
      apply compl_index_invol.
    + apply NoDup_filter, seq_NoDup.
  - apply NoDup_filter, seq_NoDup.
  - intros y. rewrite in_map_iff. split.
    + intros [x [<- Hx]]. apply A; [|exact Hx].
      apply filter_In in Hx. destruct Hx as [Hx _]. apply in_seq in Hx. lia.
    + intros Hy. exists (compl_index n y).
      split; [apply compl_index_invol|].
      assert (Hy' : y < 2 ^ n)
        by (apply filter_In in Hy; destruct Hy as [Hy _]; apply in_seq in Hy;
            lia).
      apply A; [apply compl_index_lt; exact Hy'|].
      rewrite compl_index_invol. exact Hy.
Qed.

Lemma table_symmetric_dim2 :
  __init__ 2 = Ok (env_of 4)
  /\ (forall x, x < 2 ^ qnum (env_of 4) ->
        (In x (wins_1 (endings_lookuptable (env_of 4)))
         <-> In (compl_index (qnum (env_of 4)) x)
                (wins_2 (endings_lookuptable (env_of 4)))))
  /\ List.length (wins_1 (endings_lookuptable (env_of 4)))
     = List.length (wins_2 (endings_lookuptable (env_of 4))).
Proof.
  assert (I : __init__ 2 = Ok (env_of 4)) by (vm_compute; reflexivity).
  split; [exact I|]. exact (table_symmetric 2 (env_of 4) I).
Defined.

(** ** What a step does *)

Lemma move_fields (action : Z) (self : QTicTacToeEnv) :
  qnum (fst (move action self)) = qnum self
  /\ moves (fst (move action self)) = moves self
  /\ action_space (fst (move action self)) = action_space self
  /\ endings_lookuptable (fst (move action self)) = endings_lookuptable self.
Proof.
  unfold move.
  destruct (m1 <- dict_get (moves (set_status_id self _)) action ;;
            m0 <- dict_get (moves (set_status_id self _)) action ;;
            circuit_append (circuit (set_status_id self _)) (snd m1) (fst m0));
    repeat split.
Qed.

Lemma init_keys_range (n : nat) (a : Z) :
  In a (keys (_init_moves_dict n))
  <-> (0 <= a < Z.of_nat (List.length (_init_moves_dict n)))%Z.
Proof.
  rewrite init_moves_enumerate, enumerate_keys, enumerate_length, in_map_iff.
  split.
  - intros [i [<- Hi]]. apply in_seq in Hi. lia.
  - intros H. exists (Z.to_nat a). split; [lia | apply in_seq; lia].
Qed.

Lemma get_statevec_length (self : QTicTacToeEnv) :
  List.length (_get_statevec self) = 2 ^ num_qubits (circuit self).
Proof.
  unfold _get_statevec, get_statevector, range.
  rewrite !length_map, length_seq. reflexivity.
Qed.

(** X8. In an environment that holds the generated move table, [step]
    accepts exactly the identifiers from 0 up to one less than the number
    of moves. An accepted step appends one instruction to the circuit and
    the identifier to [status_id], keeps the tables, and returns the
    rounded state vector of [2 ** qnum] entries with reward [-0.1] and
    [done = False]. Any other identifier raises [KeyError] and leaves the
    circuit as it was; no step raises an error of the circuit. *)
Theorem step_contract (self : QTicTacToeEnv) (action : Z) :
  moves self = _init_moves_dict (qnum self) ->
  num_qubits (circuit self) = qnum self ->
  ((0 <= action < Z.of_nat (List.length (moves self)))%Z ->
   exists self' m,
     dict_get (moves self) action = Ok m
     /\ step action self
        = (self', Ok (_get_statevec self', (- (1 / 10))%R, false))
     /\ List.length (_get_statevec self') = 2 ^ qnum self
     /\ data (circuit self') = data (circuit self) ++ [(snd m, fst m)]
     /\ status_id self' = status_id self ++ format_action action
     /\ qnum self' = qnum self
     /\ moves self' = moves self
     /\ endings_lookuptable self' = endings_lookuptable self)
  /\ (~ (0 <= action < Z.of_nat (List.length (moves self)))%Z ->
      exists self',
        step action self = (self', Raise (KeyError action))
        /\ circuit self' = circuit self).
Proof.
  intros Hm Hn. split; intros Ha.
  - rewrite Hm in Ha. apply init_keys_range in Ha.
    rewrite init_moves_enumerate in Ha.
    destruct (enumerate_get_In _ _ _ Ha) as [m [G Hml]].
    rewrite <- init_moves_enumerate, <- Hm in G.
    pose proof (move_list_valid _ _ Hml) as V. rewrite <- Hn in V.
    exists (after_move self m action), m. split; [exact G|].
    unfold step. rewrite (move_lookup self action m G V).
    split; [reflexivity|]. split.
    { rewrite get_statevec_length. cbn [after_move circuit num_qubits].
      rewrite Hn. reflexivity. }
    repeat split.
  - assert (G : dict_get (moves self) action = Raise (KeyError action)).
    { rewrite Hm, init_moves_enumerate. apply enumerate_get_missing.
      rewrite <- init_moves_enumerate. intros K. apply init_keys_range in K.
      rewrite <- Hm in K. contradiction. }
    exists (set_status_id self (status_id self ++ format_action action)).
    unfold step. rewrite (move_unknown self action G). split; reflexivity.
Qed.

Lemma step_contract_dim2 :
  moves (env_of 4) = _init_moves_dict (qnum (env_of 4))
  /\ num_qubits (circuit (env_of 4)) = qnum (env_of 4)
  /\ (0 <= 9 < Z.of_nat (List.length (moves (env_of 4))))%Z
  /\ (exists self' m,
        dict_get (moves (env_of 4)) 9 = Ok m
        /\ step 9 (env_of 4)
           = (self', Ok (_get_statevec self', (- (1 / 10))%R, false))
        /\ List.length (_get_statevec self') = 2 ^ qnum (env_of 4)
        /\ data (circuit self') = data (circuit (env_of 4)) ++ [(snd m, fst m)]
        /\ status_id self' = status_id (env_of 4) ++ format_action 9
        /\ qnum self' = qnum (env_of 4)
        /\ moves self' = moves (env_of 4)
        /\ endings_lookuptable self' = endings_lookuptable (env_of 4))
  /\ ~ (0 <= 20 < Z.of_nat (List.length (moves (env_of 4))))%Z
  /\ exists self',
       step 20 (env_of 4) = (self', Raise (KeyError 20))
       /\ circuit self' = circuit (env_of 4).
Proof.
  assert (A : (0 <= 9 < Z.of_nat (List.length (moves (env_of 4))))%Z)
    by (vm_compute; split; [discriminate | reflexivity]).
  assert (B : ~ (0 <= 20 < Z.of_nat (List.length (moves (env_of 4))))%Z)
    by (vm_compute; intros [_ K]; discriminate K).
  split; [reflexivity|]. split; [reflexivity|]. split; [exact A|].
  split; [exact (proj1 (step_contract (env_of 4) 9 eq_refl eq_refl) A)|].
  split; [exact B|].
  exact (proj2 (step_contract (env_of 4) 20 eq_refl eq_refl) B).
Defined.

Lemma steps_trace (actions : list Z) (self : QTicTacToeEnv) :
  moves self = _init_moves_dict (qnum self) ->
  num_qubits (circuit self) = qnum self ->
  Forall (fun a => In a (keys (moves self))) actions ->
  exists self' instrs,
    steps actions self = (self', Ok tt)
    /\ Forall2 (fun a gq => dict_get (moves self) a = Ok (snd gq, fst gq))
               actions instrs
    /\ data (circuit self') = data (circuit self) ++ instrs
    /\ status_id self' = status_id self ++ List.concat (map format_action actions)
    /\ qnum self' = qnum self /\ moves self' = moves self
    /\ num_qubits (circuit self') = num_qubits (circuit self).
Proof.
  revert self. induction actions as [|a rest IH]; intros self Hm Hn Hall.
  - exists self, []. simpl. rewrite !app_nil_r. repeat split. constructor.
  - inversion Hall as [|? ? Ha Hrest]; subst.
    assert (Ha' := Ha). rewrite Hm, init_moves_enumerate in Ha'.
    destruct (enumerate_get_In _ _ _ Ha') as [m [G Hml]].
    rewrite <- init_moves_enumerate, <- Hm in G.
    pose proof (move_list_valid _ _ Hml) as V. rewrite <- Hn in V.
    destruct (IH (after_move self m a)) as [self' [instrs [E [F [D [S [Q [M N]]]]]]]];
      [exact Hm | exact Hn | exact Hrest |].
    exists self', ((snd m, fst m) :: instrs).
    cbn [steps]. unfold step. rewrite (move_lookup self a m G V).
    split; [exact E|]. split.
    { constructor; [destruct m; exact G | exact F]. }
    cbn [after_move circuit data status_id qnum moves num_qubits] in D, S, Q, M, N.
    rewrite D, S. cbn [map List.concat]. rewrite <- !app_assoc.
    repeat split; assumption.
Qed.

(** X9. A sequence of steps with identifiers of the table is carried out
    in order: the circuit grows by the looked-up gates in the order of the
    steps, and [status_id] by the identifiers, each followed by a dash. *)
Theorem steps_in_order (actions : list Z) (self : QTicTacToeEnv) :
  moves self = _init_moves_dict (qnum self) ->
  num_qubits (circuit self) = qnum self ->
  Forall (fun a => In a (keys (moves self))) actions ->
  exists self' instrs,
    steps actions self = (self', Ok tt)
    /\ Forall2 (fun a gq => dict_get (moves self) a = Ok (snd gq, fst gq))
               actions instrs
    /\ data (circuit self') = data (circuit self) ++ instrs
    /\ status_id self' = status_id self ++ List.concat (map format_action actions).
Proof.
  intros Hm Hn Hall.
  destruct (steps_trace actions self Hm Hn Hall)
    as [self' [instrs [E [F [D [S _]]]]]].
  exists self', instrs. repeat split; assumption.
Qed.

Lemma steps_in_order_dim2 :
  moves (env_of 4) = _init_moves_dict (qnum (env_of 4))
  /\ num_qubits (circuit (env_of 4)) = qnum (env_of 4)
  /\ Forall (fun a => In a (keys (moves (env_of 4)))) [0; 9; 3]%Z
  /\ exists self' instrs,
       steps [0; 9; 3]%Z (env_of 4) = (self', Ok tt)
       /\ Forall2 (fun a gq => dict_get (moves (env_of 4)) a
                               = Ok (snd gq, fst gq))
                  [0; 9; 3]%Z instrs
       /\ data (circuit self') = data (circuit (env_of 4)) ++ instrs
       /\ status_id self'
          = status_id (env_of 4) ++ List.concat (map format_action [0; 9; 3]%Z).
Proof.
  assert (F : Forall (fun a => In a (keys (moves (env_of 4)))) [0; 9; 3]%Z)
    by (repeat constructor; simpl; tauto).
  split; [reflexivity|]. split; [reflexivity|]. split; [exact F|].
  exact (steps_in_order [0; 9; 3]%Z (env_of 4) eq_refl eq_refl F).
Defined.

(** ** Every move undoes itself *)

Lemma apply_H_twice (q : nat) (psi : amplitudes) (i : nat) :
  apply_gate HGate [q] (apply_gate HGate [q] psi) i = psi i.
Proof.
  rewrite apply_H, !apply_H, flip_testbit, flip_flip.
  pose proof sqrt2_inv_sq as Q. set (s := (/ sqrt 2)%R) in *.
  destruct (Nat.testbit i q); simpl negb; cbv iota;
    destruct (psi i) as [a b], (psi (flip i q)) as [a' b'];
    apply C_eq; simpl; ring_simplify;
    replace (s ^ 2)%R with (1 / 2)%R by (rewrite <- Q; ring); field.
Qed.

Lemma apply_CX_twice (c t : nat) (psi : amplitudes) (i : nat) :
  c <> t ->
  apply_gate CXGate [c; t] (apply_gate CXGate [c; t] psi) i = psi i.
Proof.
  intros H. rewrite (apply_CX c t _ i H).
  rewrite !(apply_CX c t psi _ H).
  rewrite flip_testbit_other by congruence. rewrite flip_flip.
  destruct (Nat.testbit i c); reflexivity.
Qed.

Lemma apply_move_twice (n : nat) (m : Move) (psi : amplitudes) (i : nat) :
  In m (move_list n) ->
  apply_gate (snd m) (fst m) (apply_gate (snd m) (fst m) psi) i = psi i.
Proof.
  intros H. apply move_list_In in H.
  destruct H as [[q [_ [->| ->]]]|[c [t [_ [_ [Hn ->]]]]]]; simpl.
  - apply apply_H_twice.
  - apply apply_X_twice.
  - apply apply_CX_twice. exact Hn.
Qed.

(** X10. Every move of the table is its own inverse: two successive steps
    with the same identifier, Hadamard, Pauli-X or controlled-X, leave the
    state vector of the board circuit as it was. *)
Theorem move_twice_identity (self : QTicTacToeEnv) (action : Z) :
  moves self = _init_moves_dict (qnum self) ->
  num_qubits (circuit self) = qnum self ->
  In action (keys (moves self)) ->
  exists self',
    steps [action; action] self = (self', Ok tt)
    /\ get_statevector (circuit self') = get_statevector (circuit self)
    /\ _get_statevec self' = _get_statevec self.
Proof.
  intros Hm Hn Ha.
  assert (Ha' := Ha). rewrite Hm, init_moves_enumerate in Ha'.
  destruct (enumerate_get_In _ _ _ Ha') as [m [G Hml]].
  rewrite <- init_moves_enumerate, <- Hm in G.
  pose proof (move_list_valid _ _ Hml) as V. rewrite <- Hn in V.
  set (self1 := after_move self m action).
  exists (after_move self1 m action).
  assert (S2 : get_statevector (circuit (after_move self1 m action))
               = get_statevector (circuit self)).
  { unfold get_statevector, statevector.
    cbn [after_move self1 circuit num_qubits data].
    apply map_ext. intros i. rewrite !run_gates_snoc. cbn [fst snd].
    apply (apply_move_twice (qnum self) m _ i Hml). }
  split.
  - cbn [steps]. unfold step. rewrite (move_lookup self action m G V).
    fold self1. rewrite (move_lookup self1 action m G V). reflexivity.
  - split; [exact S2|]. unfold _get_statevec. rewrite S2. reflexivity.
Qed.

Lemma move_twice_identity_dim2 :
  moves (reset_env (env_of 4)) = _init_moves_dict (qnum (reset_env (env_of 4)))
  /\ num_qubits (circuit (reset_env (env_of 4))) = qnum (reset_env (env_of 4))
  /\ In 9%Z (keys (moves (reset_env (env_of 4))))
  /\ exists self',
       steps [9; 9]%Z (reset_env (env_of 4)) = (self', Ok tt)
       /\ get_statevector (circuit self')
          = get_statevector (circuit (reset_env (env_of 4)))
       /\ _get_statevec self' = _get_statevec (reset_env (env_of 4)).
Proof.
  assert (K : In 9%Z (keys (moves (reset_env (env_of 4)))))
    by (simpl; tauto).
  split; [reflexivity|]. split; [reflexivity|]. split; [exact K|].
  exact (move_twice_identity (reset_env (env_of 4)) 9 eq_refl eq_refl K).
Defined.

(** ** Basis states *)

Lemma apply_X_ket (q k i : nat) :
  apply_gate XGate [q] (ket k) i = ket (flip k q) i.
Proof.
  rewrite apply_X. unfold ket.
  destruct (Nat.eqb_spec (flip i q) k) as [E|E],
           (Nat.eqb_spec i (flip k q)) as [F|F]; try reflexivity; exfalso.
  - apply F. rewrite <- E, flip_flip. reflexivity.
  - apply E. rewrite F, flip_flip. reflexivity.
Qed.

Lemma apply_CX_ket (c t k i : nat) :
  c <> t ->
  apply_gate CXGate [c; t] (ket k) i = ket (cx_index c t k) i.
Proof.
  intros H. rewrite (apply_CX c t _ i H). unfold ket.
  change (if Nat.testbit i c then flip i t else i) with (cx_index c t i).
  assert (E : forall a b, (a =? b) = (cx_index c t a =? cx_index c t b)).
  { intros a b. destruct (Nat.eqb_spec a b) as [->|N].
    - rewrite Nat.eqb_refl. reflexivity.
    - destruct (Nat.eqb_spec (cx_index c t a) (cx_index c t b)) as [K|_];
        [|reflexivity].
      exfalso. apply N.
      rewrite <- (cx_index_invol c t a H), <- (cx_index_invol c t b H), K.
      reflexivity. }
  assert (G : (cx_index c t i =? k) = (i =? cx_index c t k)).
  { rewrite (E (cx_index c t i) k), cx_index_invol by exact H. reflexivity. }
  unfold cx_index at 1. unfold cx_index in G at 1.
  destruct (Nat.testbit i c); rewrite G; reflexivity.
Qed.

Lemma classical_run (n : nat) (instrs : list (Gate * list nat)) (k i : nat) :
  forallb (valid_instr n) instrs = true ->
  forallb is_classical instrs = true ->
  run_gates instrs (ket k) i = ket (fold_left (fun k gq => classical_gate gq k) instrs k) i.
Proof.
  revert k. induction instrs as [|[g qs] instrs IH]; intros k Hv Hc;
    [reflexivity|].
  simpl in Hv, Hc. apply andb_true_iff in Hv, Hc.
  destruct Hv as [Hv Hvs], Hc as [Hc Hcs].
  cbn [run_gates fold_left fst snd].
  change (fold_left (fun psi gq => apply_gate (fst gq) (snd gq) psi) instrs
            (apply_gate g qs (ket k)) i)
    with (run_gates instrs (apply_gate g qs (ket k)) i).
  rewrite (run_gates_ext instrs _ (ket (classical_gate (g, qs) k))).
  - apply IH; assumption.
  - intros j. unfold valid_instr in Hv. simpl in Hv.
    rewrite !andb_true_iff in Hv. destruct Hv as [[_ Hnd] Har].
    apply Nat.eqb_eq in Har. destruct g; [discriminate Hc | |].
    + destruct qs as [|q [|]]; try discriminate Har. apply apply_X_ket.
    + destruct qs as [|c [|t [|]]]; try discriminate Har.
      simpl in Hnd. rewrite !andb_true_r, orb_false_r in Hnd.
      rewrite apply_CX_ket by (destruct (Nat.eqb_spec c t); [discriminate | assumption]).
      reflexivity.
Qed.

Lemma steps_ok_wf (acts : list Z) (self self' : QTicTacToeEnv) :
  wf_env self -> steps acts self = (self', Ok tt) ->
  wf_env self' /\ qnum self' = qnum self.
Proof.
  revert self self'. induction acts as [|a rest IH]; intros self self' W E.
  - simpl in E. inversion E; subst. split; [exact W | reflexivity].
  - cbn [steps] in E. unfold step in E.
    destruct (move a self) as [s1 [[]|e]] eqn:M; [|discriminate E].
    assert (Ha : In a (keys (moves self))).
    { destruct W as [Hm _]. rewrite Hm, init_moves_enumerate.
      destruct (in_dec Z.eq_dec a (keys (enumerate 0 (move_list (qnum self)))))
        as [K|K]; [exact K|].
      apply enumerate_get_missing in K.
      rewrite <- init_moves_enumerate, <- Hm in K.
      rewrite (move_unknown self a K) in M. discriminate M. }
    destruct (move_wf self s1 a W Ha M) as [W1 [Q1 _]].
    destruct (IH s1 self' W1 E) as [W' Q']. split; [exact W'|]. congruence.
Qed.

(** X11. Pauli-X and controlled-X moves act on the board as on classical
    bits. From a new environment, whose register is the basis state of
    index 0, steps with such moves only leave the register in one basis
    state: the index obtained by flipping bit [q] for each Pauli-X on [q]
    and bit [t] for each controlled-X on [(c, t)] made while bit [c] is set. *)
Theorem classical_moves_basis_state
        (grid_size : Z) (env0 env : QTicTacToeEnv) (actions : list Z) :
  __init__ grid_size = Ok env0 ->
  steps actions env0 = (env, Ok tt) ->
  forallb is_classical (data (circuit env)) = true ->
  get_statevector (circuit env)
  = map (ket (fold_left (fun k gq => classical_gate gq k)
                        (data (circuit env)) 0))
        (range (2 ^ qnum env0)).
Proof.
  intros Hinit Hsteps Hc. pose proof (init_wf _ _ Hinit) as Hwf.
  destruct (steps_ok_wf actions env0 env Hwf Hsteps) as [[_ [Hn Hv]] Hq].
  unfold get_statevector, statevector. rewrite Hn, Hq.
  apply map_ext. intros i. rewrite Hq in Hv.
  apply (classical_run (qnum env0)); assumption.
Qed.

Lemma classical_moves_basis_state_dim2 :
  __init__ 2 = Ok (env_of 4)
  /\ steps [1; 9]%Z (env_of 4)
     = (after_move (after_move (env_of 4) ([0], XGate) 1) ([0; 2], CXGate) 9,
        Ok tt)
  /\ get_statevector
       (circuit (after_move (after_move (env_of 4) ([0], XGate) 1)
                            ([0; 2], CXGate) 9))
     = map (ket 5) (range (2 ^ qnum (env_of 4))).
Proof.
  assert (I : __init__ 2 = Ok (env_of 4)) by (vm_compute; reflexivity).
  assert (S : steps [1; 9]%Z (env_of 4)
              = (after_move (after_move (env_of 4) ([0], XGate) 1)
                            ([0; 2], CXGate) 9, Ok tt)) by reflexivity.
  split; [exact I|]. split; [exact S|].
  exact (classical_moves_basis_state 2 (env_of 4) _ [1; 9]%Z I S eq_refl).
Defined.

(** ** The imaginary parts *)

Lemma apply_gate_real (n : nat) (gq : Gate * list nat) (psi : amplitudes) :
  valid_instr n gq = true ->
  (forall i, snd (psi i) = 0%R) ->
  forall i, snd (apply_gate (fst gq) (snd gq) psi i) = 0%R.
Proof.
  destruct gq as [g qs]. unfold valid_instr. simpl.
  rewrite !andb_true_iff. intros [[_ Hnd] Har] Hre i.
  apply Nat.eqb_eq in Har. destruct g; simpl in Har.
  - destruct qs as [|q [|]]; try discriminate. rewrite apply_H.
    destruct (Nat.testbit i q); simpl; rewrite !Hre; ring.
  - destruct qs as [|q [|]]; try discriminate. rewrite apply_X. apply Hre.
  - destruct qs as [|c [|t [|]]]; try discriminate.
    simpl in Hnd. rewrite !andb_true_r, orb_false_r in Hnd.
    rewrite apply_CX by (destruct (Nat.eqb_spec c t); [discriminate | assumption]).
    destruct (Nat.testbit i c); apply Hre.
Qed.

Lemma run_gates_real (n : nat) (instrs : list (Gate * list nat))
      (psi : amplitudes) :
  forallb (valid_instr n) instrs = true ->
  (forall i, snd (psi i) = 0%R) ->
  forall i, snd (run_gates instrs psi i) = 0%R.
Proof.
  revert psi. induction instrs as [|gq instrs IH]; intros psi Hv Hre;
    [exact Hre|].
  simpl in Hv. apply andb_true_iff in Hv. destruct Hv as [Hv Hvs].
  simpl. apply IH; [exact Hvs|]. apply (apply_gate_real n); assumption.
Qed.

(** X12. The vector returned has real entries: after any steps made from
    a new or a reset environment, every entry of the vector
    [_get_statevec] returns has imaginary part 0. *)
Theorem get_statevec_real
        (grid_size : Z) (env0 env : QTicTacToeEnv) (from_reset : bool)
        (actions : list Z) :
  __init__ grid_size = Ok env0 ->
  steps actions (if from_reset then fst (reset env0) else env0) = (env, Ok tt) ->
  Forall (fun z => snd z = 0%R) (_get_statevec env).
Proof.
  intros Hinit Hsteps. pose proof (init_wf _ _ Hinit) as Hwf.
  assert (Hs : wf_env (if from_reset then fst (reset env0) else env0)).
  { destruct from_reset; [|exact Hwf]. rewrite reset_ok. apply reset_wf.
    exact Hwf. }
  destruct (steps_ok_wf actions _ env Hs Hsteps) as [[_ [Hn Hv]] _].
  unfold _get_statevec. apply Forall_forall. intros z Hz.
  apply in_map_iff in Hz. destruct Hz as [z0 [<- Hz0]].
  unfold get_statevector, statevector in Hz0.
  apply in_map_iff in Hz0. destruct Hz0 as [i [<- _]].
  unfold Caround2. cbn [snd].
  rewrite (run_gates_real (qnum env) (data (circuit env)) ket0 Hv).
  - apply around2_zero.
  - intros j. unfold ket0. destruct (j =? 0); reflexivity.
Qed.

Lemma get_statevec_real_dim2 :
  __init__ 2 = Ok (env_of 4)
  /\ steps [0; 9]%Z (fst (reset (env_of 4)))
     = (after_move (after_move (reset_env (env_of 4)) ([0], HGate) 0)
                   ([0; 2], CXGate) 9, Ok tt)
  /\ Forall (fun z => snd z = 0%R)
            (_get_statevec
               (after_move (after_move (reset_env (env_of 4)) ([0], HGate) 0)
                           ([0; 2], CXGate) 9)).
Proof.
  assert (I : __init__ 2 = Ok (env_of 4)) by (vm_compute; reflexivity).
  assert (S : steps [0; 9]%Z (fst (reset (env_of 4)))
              = (after_move (after_move (reset_env (env_of 4)) ([0], HGate) 0)
                            ([0; 2], CXGate) 9, Ok tt)) by reflexivity.
  split; [exact I|]. split; [exact S|].
  exact (get_statevec_real 2 (env_of 4) _ true [0; 9]%Z I S).
Defined.

(** ** Reset and the moves made before it *)

Lemma steps_fields (actions : list Z) (self : QTicTacToeEnv) :
  qnum (fst (steps actions self)) = qnum self
  /\ moves (fst (steps actions self)) = moves self
  /\ action_space (fst (steps actions self)) = action_space self
  /\ endings_lookuptable (fst (steps actions self)) = endings_lookuptable self.
Proof.
  revert self. induction actions as [|a rest IH]; intros self;
    [repeat split|].
  cbn [steps]. unfold step.
  pose proof (move_fields a self) as F.
  destruct (move a self) as [s1 [u|e]]; cbn [fst] in F.
  - destruct (IH s1) as [A [B [C D]]]. destruct F as [A' [B' [C' D']]].
    repeat split; congruence.
  - exact F.
Qed.

(** X13. [reset] forgets the moves: after any sequence of steps, whether
    they all succeeded or one raised, [reset] leaves the same environment
    and returns the same vector as a [reset] made before them. *)
Theorem reset_forgets_steps (self : QTicTacToeEnv) (actions : list Z) :
  reset (fst (steps actions self)) = reset self.
Proof.
  rewrite !reset_ok. destruct (steps_fields actions self) as [A [B [C D]]].
  unfold reset_env. rewrite A, B, C, D. reflexivity.
Qed.

(** ** The error of the rounding *)

Lemma rint_error (x : R) : (Rabs (IZR (rint x) - x) <= 1 / 2)%R.
Proof.
  unfold rint. destruct (base_Int_part x) as [Lo Hi].
  set (f := Int_part x) in *.
  destruct (Rlt_dec (x - IZR f) (1 / 2)).
  - apply Rabs_le. lra.
  - destruct (Rlt_dec (1 / 2) (x - IZR f)).
    + rewrite plus_IZR. apply Rabs_le. lra.
    + destruct (Z.even f); [|rewrite plus_IZR]; apply Rabs_le; lra.
Qed.

Lemma around2_error (x : R) : (Rabs (around2 x - x) <= 1 / 200)%R.
Proof.
  unfold around2. pose proof (rint_error (x * 100)) as E.
  apply Rabs_le. unfold Rabs in E. destruct (Rcase_abs _) in E; lra.
Qed.

(** X14. [_get_statevec] returns one entry per entry of the state vector;
    the real and the imaginary part of each are whole multiples of 0.01
    at most 0.005 away from the exact ones. *)
Theorem get_statevec_rounding (self : QTicTacToeEnv) (k : nat) (z : C) :
  nth_error (get_statevector (circuit self)) k = Some z ->
  exists z',
    nth_error (_get_statevec self) k = Some z'
    /\ (Rabs (fst z' - fst z) <= 1 / 200)%R
    /\ (Rabs (snd z' - snd z) <= 1 / 200)%R
    /\ exists m1 m2, z' = (IZR m1 / 100, IZR m2 / 100)%R.
Proof.
  intros H. exists (Caround2 z). split.
  - unfold _get_statevec. rewrite nth_error_map, H. reflexivity.
  - unfold Caround2. cbn [fst snd].
    split; [apply around2_error|]. split; [apply around2_error|].
    exists (rint (fst z * 100)), (rint (snd z * 100)). reflexivity.
Qed.

Lemma get_statevec_rounding_dim1 :
  nth_error (get_statevector (circuit (env_of 1))) 0 = Some C1
  /\ exists z',
       nth_error (_get_statevec (env_of 1)) 0 = Some z'
       /\ (Rabs (fst z' - fst C1) <= 1 / 200)%R
       /\ (Rabs (snd z' - snd C1) <= 1 / 200)%R
       /\ exists m1 m2, z' = (IZR m1 / 100, IZR m2 / 100)%R.
Proof.
  split; [reflexivity|].
  apply (get_statevec_rounding (env_of 1) 0 C1). reflexivity.
Defined.

(** ** The identifiers of the moves *)

Lemma nth_error_flat_const {A B} (f : A -> list B) (l : list A) (k c j : nat) :
  (forall x, In x l -> List.length (f x) = k) ->
  j < k ->
  nth_error (flat_map f l) (c * k + j)
  = match nth_error l c with
    | Some x => nth_error (f x) j
    | None => None
    end.
Proof.
  revert c. induction l as [|x l IH]; intros c Hk Hj.
  - simpl. destruct (c * k + j), c; reflexivity.
  - destruct c as [|c]; cbn [flat_map nth_error].
    + simpl. apply nth_error_app1. rewrite Hk by (left; reflexivity). exact Hj.
    + rewrite nth_error_app2 by (rewrite Hk by (left; reflexivity); simpl; lia).
      rewrite Hk by (left; reflexivity).
      replace (S c * k + j - k) with (c * k + j) by (simpl; lia).
      apply IH; [|exact Hj]. intros y Hy. apply Hk. right. exact Hy.
Qed.

Lemma others_seq (c n : nat) :
  c < n -> others c (seq 0 n) = seq 0 c ++ seq (S c) (n - 1 - c).
Proof.
  intros H. replace n with (c + S (n - 1 - c)) at 1 by lia.
  rewrite seq_app. cbn [seq Nat.add]. unfold others. rewrite filter_app.
  cbn [filter]. rewrite Nat.eqb_refl. cbn [negb].
  fold (others c (seq 0 c)). fold (others c (seq (S c) (n - 1 - c))).
  rewrite !others_notin; [reflexivity | |];
    intros K; apply in_seq in K; lia.
Qed.

Lemma nth_error_singles_H (a n q : nat) (rest : list Move) :
  q < n ->
  nth_error (flat_map (fun q => [([q], HGate); ([q], XGate)]) (seq a n) ++ rest)
            (2 * q)
  = Some ([a + q], HGate).
Proof.
  revert a q. induction n as [|n IH]; intros a q H; [lia|].
  destruct q as [|q].
  - simpl. rewrite Nat.add_0_r. reflexivity.
  - replace (2 * S q) with (S (S (2 * q))) by lia.
    cbn [seq flat_map app nth_error]. rewrite IH by lia.
    do 3 f_equal. lia.
Qed.

Lemma nth_error_pairs (n c t : nat) :
  c < n -> t < n -> c <> t ->
  nth_error (permutations2 (range n))
            (c * (n - 1) + (if t <? c then t else t - 1))
  = Some (c, t).
Proof.
  intros Hc Ht Hn. unfold range.
  rewrite (permutations2_nodup _ (seq_NoDup n 0)).
  rewrite (nth_error_flat_const _ _ (n - 1)).
  - rewrite nth_error_seq. destruct (Nat.ltb_spec c n); [|lia]. simpl Nat.add.
    rewrite nth_error_map, (others_seq c n Hc).
    destruct (Nat.ltb_spec t c).
    + rewrite nth_error_app1 by (rewrite length_seq; assumption).
      rewrite nth_error_seq. destruct (Nat.ltb_spec t c); [reflexivity | lia].
    + rewrite nth_error_app2 by (rewrite length_seq; lia).
      rewrite length_seq, nth_error_seq.
      destruct (Nat.ltb_spec (t - 1 - c) (n - 1 - c)); [|lia].
      simpl. do 2 f_equal. lia.
  - intros x Hx. rewrite length_map.
    pose proof (others_length x (seq 0 n) (seq_NoDup n 0) Hx) as L.
    rewrite length_seq in L. lia.
  - destruct (Nat.ltb_spec t c); lia.
Qed.

(** X15. The layout of the identifiers: [2 * q] is the Hadamard move and
    [2 * q + 1] the Pauli-X move on qubit [q]; the controlled-X moves follow
    from [2 * n], grouped by control qubit, the targets of one control in
    increasing order. *)
Theorem move_identifiers (n : nat) :
  (forall q, q < n ->
     dict_get (_init_moves_dict n) (Z.of_nat (2 * q)) = Ok ([q], HGate)
     /\ dict_get (_init_moves_dict n) (Z.of_nat (2 * q + 1)) = Ok ([q], XGate))
  /\ (forall c t, c < n -> t < n -> c <> t ->
        dict_get (_init_moves_dict n) (cx_id n c t) = Ok ([c; t], CXGate)).
Proof.
  split.
  - intros q Hq. split; [|apply pauli_x_lookup; exact Hq].
    rewrite init_moves_enumerate.
    apply (enumerate_get 0 (move_list n) (2 * q)).
    unfold move_list, range. apply (nth_error_singles_H 0 n q _ Hq).
  - intros c t Hc Ht Hn. rewrite init_moves_enumerate. unfold cx_id.
    apply (enumerate_get 0 (move_list n)).
    unfold move_list.
    assert (L : List.length
                  (flat_map (fun q => [([q], HGate); ([q], XGate)]) (range n))
                = 2 * n).
    { rewrite (flat_map_length_const _ _ 2) by reflexivity.
      unfold range. rewrite length_seq. lia. }
    pose proof (nth_error_pairs n c t Hc Ht Hn) as P.
    set (j := if t <? c then t else t - 1) in *.
    set (m := c * (n - 1)) in *.
    rewrite nth_error_app2 by (rewrite L; lia). rewrite L.
    replace (2 * n + m + j - 2 * n) with (m + j) by lia.
    rewrite nth_error_map, P. reflexivity.
Qed.

(** ** Collapsing the board *)

Lemma slice_prefix {A} (s t : list A) : slice (s ++ t) 0 (List.length s) = s.
Proof.
  unfold slice. rewrite Nat.sub_0_r. simpl skipn.
  rewrite firstn_app, Nat.sub_diag, firstn_all. simpl. apply app_nil_r.
Qed.

(** X16. [collapse_board] returns the measured basis state itself. For an
    outcome below [2 ** qnum], the first [qnum] characters of the counts
    key are the board string of the outcome, whether or not the circuit
    was created with classical bits, as [reset] does, so the integer read
    from them is the outcome, and [check_end] of it is the label
    [_win_check] gives the measured bits. *)
Theorem collapse_board_outcome
        (grid_size : Z) (env0 self : QTicTacToeEnv) (actions : list Z)
        (from_reset : bool) (outcome : nat) :
  __init__ grid_size = Ok env0 ->
  steps actions (if from_reset then fst (reset env0) else env0) = (self, Ok tt) ->
  outcome < 2 ^ qnum self ->
  slice (counts_key (circuit self) outcome) 0 (qnum self)
  = board_of (qnum self) outcome
  /\ collapse_board outcome self = Ok outcome
  /\ _win_check (qnum self) (slice (counts_key (circuit self) outcome) 0 (qnum self))
     = Ok (check_end self outcome).
Proof.
  intros Hinit Hsteps Hx. pose proof (init_wf _ _ Hinit) as Hwf.
  assert (N : grid_size <> 0%Z) by (intros ->; discriminate Hinit).
  rewrite (init_env _ N) in Hinit. set (n := Z.to_nat (grid_size ^ 2)) in *.
  assert (E0 : env0 = env_of n) by congruence. subst env0. clear Hinit.
  assert (Hn1 : 1 <= n) by (subst n; nia).
  assert (Hs : wf_env (if from_reset then fst (reset (env_of n)) else env_of n)).
  { destruct from_reset; [|exact Hwf]. rewrite reset_ok. apply reset_wf.
    exact Hwf. }
  destruct (steps_ok_wf actions _ self Hs Hsteps) as [[_ [Hn _]] Hq].
  pose proof (steps_fields actions
                (if from_reset then fst (reset (env_of n)) else env_of n))
    as [_ [_ [_ Ht]]].
  rewrite Hsteps in Ht. cbn [fst] in Ht.
  assert (Q : qnum self = n).
  { rewrite Hq. destruct from_reset; [rewrite reset_ok|]; reflexivity. }
  assert (T : endings_lookuptable self = endings_lookuptable (env_of n)).
  { rewrite Ht. destruct from_reset; [rewrite reset_ok|]; reflexivity. }
  rewrite Q in *.
  assert (K : slice (counts_key (circuit self) outcome) 0 n = board_of n outcome).
  { unfold counts_key. rewrite Hn.
    match goal with
    | |- slice (_ ++ ?suffix) 0 n = _ =>
        pose proof (slice_prefix (board_of n outcome) suffix) as P
    end.
    rewrite (board_of_length n outcome Hx Hn1) in P. exact P. }
  split; [exact K|]. split.
  - unfold collapse_board. rewrite Q, K. apply int2_board_of.
  - rewrite K. destruct (win_check_board_of n outcome) as [w [Hw _]].
    destruct (check_end_label n outcome w Hx Hw) as [E _].
    unfold check_end in *. rewrite T. rewrite E. exact Hw.
Qed.

Lemma collapse_board_outcome_dim2 :
  __init__ 2 = Ok (env_of 4)
  /\ steps [0]%Z (fst (reset (env_of 4)))
     = (after_move (reset_env (env_of 4)) ([0], HGate) 0, Ok tt)
  /\ 6 < 2 ^ qnum (after_move (reset_env (env_of 4)) ([0], HGate) 0)
  /\ counts_key (circuit (after_move (reset_env (env_of 4)) ([0], HGate) 0)) 6
     = list_ascii_of_string "0110 0000"
  /\ collapse_board 6 (after_move (reset_env (env_of 4)) ([0], HGate) 0) = Ok 6
  /\ _win_check 4 (list_ascii_of_string "0110")
     = Ok (check_end (after_move (reset_env (env_of 4)) ([0], HGate) 0) 6).
Proof.
  assert (I : __init__ 2 = Ok (env_of 4)) by (vm_compute; reflexivity).
  assert (S : steps [0]%Z (fst (reset (env_of 4)))
              = (after_move (reset_env (env_of 4)) ([0], HGate) 0, Ok tt))
    by reflexivity.
  assert (L : 6 < 2 ^ qnum (after_move (reset_env (env_of 4)) ([0], HGate) 0))
    by (simpl; lia).
  destruct (collapse_board_outcome 2 (env_of 4) _ [0]%Z true 6 I S L)
    as [A [B C]].
  split; [exact I|]. split; [exact S|]. split; [exact L|].
  split; [reflexivity|]. split; [exact B|]. exact C.
Defined.
